(** * node-backpack: the attributions generator

    A shallow embedding of the [Attributions] class of node-backpack
    (src/api/_attributions.ts, and the later revision of the same class
    that follows src/cli-main.ts), together with the properties its
    specification states about the generated THIRD_PARTY_LICENSES document,
    the versions index and the validation report, and of the loops of
    [cliMain] (src/cli-main.ts) over the values of the options [external]
    and [resource].

    Conventions of the embedding:
    - a JavaScript string is a [string]: a sequence of code units, restricted
      to the code units below 256 (Latin-1);
    - the file system is a finite map from paths to file contents;
    - an object literal used as a dictionary is the list of its own
      properties; a read of a property that it does not own sees the
      properties it inherits from [Object.prototype];
    - the license probe (license-checker run through the shell) is a function
      from a working directory and a list of package identifiers to the parsed
      JSON map it prints, or to nothing when the tool fails;
    - code that can throw runs in a small monad that threads the log of probe
      invocations and stops at the first exception. *)

From Stdlib Require Import ZArith Ascii String.
From Stdlib Require OrderedTypeEx.
From stdpp Require Import base option list sorting gmap strings.

Set Warnings "-clear-no-such-hyp".

(** ** JavaScript strings *)

Module Js.

Definition LF : string := String "010"%char EmptyString.
Definition CR : string := String "013"%char EmptyString.
Definition CRLF : string := CR +:+ LF.
Definition QUOTE : string := String "034"%char EmptyString.

(** Truthiness of a value of type [string | undefined]. *)
Definition truthy (v : option string) : bool :=
  match v with
  | None => false
  | Some EmptyString => false
  | Some _ => true
  end.

(** [String.prototype.toLowerCase] on the code units below 256: A-Z and
    the Latin-1 capitals (U+00C0-U+00DE except the multiplication sign
    U+00D7) move up by 32, every other code unit is its own lower case. *)
Definition toLowerCase_code (n : N) : N :=
  if ((65 <=? n) && (n <=? 90)
      || (192 <=? n) && (n <=? 222) && negb (n =? 215))%N
  then (n + 32)%N else n.

Fixpoint toLowerCase (s : string) : string :=
  match s with
  | EmptyString => EmptyString
  | String c s' =>
      String (ascii_of_N (toLowerCase_code (N_of_ascii c))) (toLowerCase s')
  end.

(** [String.prototype.endsWith]. *)
Definition endsWith (s suffix : string) : bool :=
  let n := String.length s in
  let k := String.length suffix in
  bool_decide (k ≤ n) && String.eqb (String.substring (n - k) k s) suffix.

(** [Array.prototype.join]. *)
Fixpoint join (sep : string) (l : list string) : string :=
  match l with
  | [] => EmptyString
  | x :: l' =>
      match l' with
      | [] => x
      | _ :: _ => x +:+ sep +:+ join sep l'
      end
  end.

(** [s.replace(/\r\n/g, '\n')]: one pass from the left, every carriage
    return that is directly followed by a line feed is dropped. *)
Fixpoint replace_crlf (s : string) : string :=
  match s with
  | EmptyString => EmptyString
  | String c s' =>
      match s' with
      | String d rest =>
          if Ascii.eqb c "013"%char && Ascii.eqb d "010"%char
          then String "010"%char (replace_crlf rest)
          else String c (replace_crlf s')
      | EmptyString => String c (replace_crlf s')
      end
  end.

(** The template literal of [a[0]]: the first element, or the text
    [undefined] when the array is empty. *)
Definition first_or_undefined (a : list string) : string :=
  match a with
  | [] => "undefined"
  | x :: _ => x
  end.

(** [Array.prototype.sort] with a comparison function. The sort of the
    language is stable, so for a consistent comparison function its result
    is the one computed by this stable insertion sort: [x] goes in front
    of the first element it does not compare greater than. *)
Section sort.
Context {A : Type} (compareFn : A → A → Z).

Fixpoint sort_insert (x : A) (l : list A) : list A :=
  match l with
  | [] => [x]
  | y :: l' =>
      if (compareFn x y <=? 0)%Z then x :: l else y :: sort_insert x l'
  end.

Definition sort (l : list A) : list A := foldr sort_insert [] l.
End sort.

(** *** Objects used as dictionaries

    An object of type [{ [key: string]: V }] is kept as the list of its
    own properties in creation order. *)
Definition object (V : Type) : Type := list (string * V).

Fixpoint get {V} (o : object V) (k : string) : option V :=
  match o with
  | [] => None
  | (k', v') :: o' => if decide (k' = k) then Some v' else get o' k
  end.

Fixpoint set {V} (o : object V) (k : string) (v : V) : object V :=
  match o with
  | [] => [(k, v)]
  | (k', v') :: o' =>
      if decide (k' = k) then (k, v) :: o' else (k', v') :: set o' k v
  end.

(** The names of the properties of [Object.prototype]. An object literal
    inherits them; their values are functions, or, for [__proto__], the
    prototype itself. *)
Definition Object_prototype : list string :=
  [ "constructor"; "__defineGetter__"; "__defineSetter__"; "hasOwnProperty";
    "__lookupGetter__"; "__lookupSetter__"; "isPrototypeOf";
    "propertyIsEnumerable"; "toString"; "valueOf"; "__proto__";
    "toLocaleString" ].

(** What the expression [o[k]] finds on an object literal: the value of an
    own property, a value inherited from [Object.prototype] (none of
    which is an array), or [undefined]. *)
Inductive property (V : Type) : Type :=
| own (v : V)
| inherited
| undefined.
Arguments own {V} v.
Arguments inherited {V}.
Arguments undefined {V}.

Definition read {V} (o : object V) (k : string) : property V :=
  match get o k with
  | Some v => own v
  | None => if bool_decide (k ∈ Object_prototype) then inherited else undefined
  end.

(** A property key is an array index when it is the canonical decimal
    form of an integer between 0 and 2^32 - 2. *)
Definition digit_value (c : ascii) : option N :=
  let n := N_of_ascii c in
  if ((48 <=? n) && (n <=? 57))%N then Some (n - 48)%N else None.

Fixpoint decimal_value (s : string) (acc : N) : option N :=
  match s with
  | EmptyString => Some acc
  | String c s' =>
      match digit_value c with
      | Some d => decimal_value s' (10 * acc + d)%N
      | None => None
      end
  end.

Definition array_index (k : string) : option N :=
  match k with
  | EmptyString => None
  | String "0"%char EmptyString => Some 0%N
  | String "0"%char _ => None
  | _ =>
      match decimal_value k 0 with
      | Some n => if (n <? 2 ^ 32 - 1)%N then Some n else None
      | None => None
      end
  end.

(** Own properties in enumeration order: the array indices in ascending
    numeric order, then the other keys in creation order. *)
Definition index_entries {V} (o : object V) : list (N * (string * V)) :=
  omap (λ p, match array_index p.1 with
             | Some n => Some (n, p)
             | None => None
             end) o.

Definition entries {V} (o : object V) : list (string * V) :=
  (snd <$> sort (λ a b, (Z.of_N a.1 - Z.of_N b.1)%Z) (index_entries o))
  ++ filter (λ p, array_index p.1 = None) o.

(** *** JSON.stringify(value, null, 2) for dictionaries of string arrays *)

Definition hex_digit (n : N) : ascii :=
  if (n <? 10)%N then ascii_of_N (48 + n) else ascii_of_N (87 + n).

Definition json_escape (c : ascii) : string :=
  let n := N_of_ascii c in
  if (n =? 8)%N then "\b"
  else if (n =? 9)%N then "\t"
  else if (n =? 10)%N then "\n"
  else if (n =? 12)%N then "\f"
  else if (n =? 13)%N then "\r"
  else if (n =? 34)%N then "\" +:+ QUOTE
  else if (n =? 92)%N then "\\"
  else if (n <? 32)%N
       then "\u00" +:+ String (hex_digit (n / 16)) (String (hex_digit (n mod 16)) EmptyString)
       else String c EmptyString.

Fixpoint json_escape_all (s : string) : string :=
  match s with
  | EmptyString => EmptyString
  | String c s' => json_escape c +:+ json_escape_all s'
  end.

Definition json_quote (s : string) : string :=
  QUOTE +:+ json_escape_all s +:+ QUOTE.

(** An array at nesting depth one: the elements are indented by four
    spaces and the closing bracket by two. *)
Definition json_array (a : list string) : string :=
  match a with
  | [] => "[]"
  | _ => "[" +:+ LF +:+ "    "
         +:+ join ("," +:+ LF +:+ "    ") (json_quote <$> a)
         +:+ LF +:+ "  ]"
  end.

Definition json_property (p : string * list string) : string :=
  json_quote p.1 +:+ ": " +:+ json_array p.2.

Definition JSON_stringify (o : object (list string)) : string :=
  match entries o with
  | [] => "{}"
  | es => "{" +:+ LF +:+ "  "
          +:+ join ("," +:+ LF +:+ "  ") (json_property <$> es)
          +:+ LF +:+ "}"
  end.

End Js.

(** ** Data *)

(** The fields of a dependency ([Package] of ./bundle) that are read here. *)
Module Package.
Record t : Type := { name : string; version : string; path : string }.
End Package.

(** An entry of the probe's output ([ModuleInfo] of license-checker). The
    [licenses] key comes as a string or as an array of strings. *)
Module ModuleInfo.
Inductive licenses_field : Type :=
| One (license : string)
| Many (licenses : list string).

Record t : Type := {
  licenses : option licenses_field;
  licenseFile : option string;
  noticeFile : option string;
}.
End ModuleInfo.

(** Attribution of a specific dependency. *)
Module Attribution.
Record t : Type := {
  packageFqn : string;
  packageName : string;
  packageVersion : string;
  url : string;
  licenses : list string;
  licenseText : option string;
  noticeText : option string;
}.
End Attribution.

(** What the class takes from the language runtime: the locale-sensitive
    string comparison, regular expressions ([None] when the pattern does
    not compile) and the path functions of node. *)
Class Runtime : Type := {
  localeCompare : string → string → Z;
  RegExp_test : string → string → option bool;
  path_join : string → string → string;
  path_relative : string → string → string;
}.

(** A comparison function is consistent when "not greater" is a total
    preorder; [Array.prototype.sort] promises a sorted result only then. *)
Definition consistent (compareFn : string → string → Z) : Prop :=
  (∀ a b, (compareFn a b <= 0)%Z ∨ (compareFn b a <= 0)%Z)
  ∧ (∀ a b c, (compareFn a b <= 0)%Z → (compareFn b c <= 0)%Z
              → (compareFn a c <= 0)%Z).

(** The world outside the process: what the probe answers for a working
    directory and a list of package identifiers, and the files on disk. *)
Record World : Type := {
  probe : string → list string → option (gmap string ModuleInfo.t);
  files : gmap string string;
}.

(** ** Exceptions and the log of probe invocations *)

Inductive exception : Type :=
| SyntaxError (pattern : string)
| ShellError (cwd : string) (packages : list string)
| ENOENT (path : string)
| TypeError (message : string)
| Error (message : string).

Inductive result (A : Type) : Type :=
| Ok (a : A)
| Throw (e : exception).
Arguments Ok {A} a.
Arguments Throw {A} e.

(** A [for ... of] loop over an array whose body updates the variables
    [state] and can throw. *)
Fixpoint for_of {S A} (body : S → A → result S) (state : S) (l : list A)
  : result S :=
  match l with
  | [] => Ok state
  | x :: l' =>
      match body state x with
      | Ok state' => for_of body state' l'
      | Throw e => Throw e
      end
  end.

Definition ProbeLog : Type := list (string * list string).

Definition M (A : Type) : Type := ProbeLog → ProbeLog * result A.

Definition ret {A} (a : A) : M A := λ log, (log, Ok a).

Definition throw {A} (e : exception) : M A := λ log, (log, Throw e).

(** A computation that does not run the probe. *)
Definition lift {A} (r : result A) : M A := λ log, (log, r).

Definition bind {A B} (m : M A) (k : A → M B) : M B :=
  λ log,
    match m log with
    | (log', Ok a) => k a log'
    | (log', Throw e) => (log', Throw e)
    end.

Notation "'let*' x ':=' m 'in' k" := (bind m (λ x, k))
  (at level 10, x name, m at level 100, k at level 200, only parsing).

(** A [for] loop over an array that pushes one element per iteration. *)
Fixpoint for_each {A B} (f : A → M B) (l : list A) : M (list B) :=
  match l with
  | [] => ret []
  | x :: l' => let* y := f x in let* ys := for_each f l' in ret (y :: ys)
  end.

(** [Array.prototype.filter] with a predicate that can throw. *)
Fixpoint filter_array {A} (p : A → M bool) (l : list A) : M (list A) :=
  match l with
  | [] => ret []
  | x :: l' =>
      let* keep := p x in
      let* rest := filter_array p l' in
      ret (if keep then x :: rest else rest)
  end.

(** ** Violations *)

Inductive ViolationType : Type :=
| MISSING_NOTICE
| OUTDATED_ATTRIBUTIONS
| MISSING_LICENSES
| OUTDATED_LICENSES
| MISSING_VERSIONS
| OUTDATED_VERSIONS
| INVALID_LICENSE
| NO_LICENSE
| MULTIPLE_LICENSE.

Global Instance ViolationType_eq_dec : EqDecision ViolationType.
Proof. solve_decision. Defined.

(** A violation; its optional [fix] (here [fix_], the name being reserved)
    is a closure over the object that reported it, run for its effect on the
    file system. *)
Module Violation.
Record t : Type := {
  type : ViolationType;
  message : string;
  fix_ : option (gmap string string → gmap string string);
}.
End Violation.

Module ViolationsReport.
Record t : Type := { violations : list Violation.t }.
End ViolationsReport.

(** ** The parts of [Attributions] common to both revisions

    The two revisions of the class differ in how the caller asks for the
    versions to be written into the document: src/api/_attributions.ts has
    the flag [encodeVersions], the later revision turns it around and has
    an optional [versionsPath] (versions are in the document when it is not
    set). [attribute] and [render] below take that choice as the boolean
    [encodeVersions]; the later revision passes [negb (truthy versionsPath)]. *)

Definition ATTRIBUTION_SEPARATOR : string :=
  Js.LF +:+ "----------------" +:+ Js.LF.

Definition pkg (d : Package.t) : string :=
  Package.name d +:+ "@" +:+ Package.version d.

(** Runs the probe in [_cwd]; the invocation is recorded, and a failing
    command or an output that does not parse is thrown. *)
Definition fetchInfos (w : World) (_cwd : string) (_packages : list string)
  : M (gmap string ModuleInfo.t) :=
  λ log,
    (log ++ [(_cwd, _packages)],
     match probe w _cwd _packages with
     | Some infos => Ok infos
     | None => Throw (ShellError _cwd _packages)
     end).

Definition readFileSync (w : World) (file : string) : M string :=
  match files w !! file with
  | Some text => ret text
  | None => throw (ENOENT file)
  end.

(** The value of [v] when it is truthy. *)
Definition when_truthy (v : option string) : option string :=
  if Js.truthy v then v else None.

(** [cond ? fs.readFileSync(file) : undefined] for a [file] that is tested
    for truthiness. *)
Definition read_if_set (w : World) (file : option string) : M (option string) :=
  match when_truthy file with
  | Some f => let* text := readFileSync w f in ret (Some text)
  | None => ret None
  end.

Definition unable_to_locate (d : Package.t) : exception :=
  Error ("Unable to locate license information for " +:+ pkg d
         +:+ " (" +:+ Package.path d +:+ ")").

(** The body of the loop of [attribute]. *)
Definition attribute_dependency (w : World) (encodeVersions : bool)
    (infos : gmap string ModuleInfo.t) (dep : Package.t) : M Attribution.t :=
  let key := pkg dep in
  let* info :=
    match infos !! key with
    | Some info => ret (Some info)
    | None =>
        let* own := fetchInfos w (Package.path dep) [pkg dep] in ret (own !! key)
    end in
  match info with
  | None => throw (unable_to_locate dep)
  | Some info =>
      let* noticeText := read_if_set w (ModuleInfo.noticeFile info) in
      let licenseFile :=
        match ModuleInfo.licenseFile info with
        | Some f =>
            if Js.endsWith (Js.toLowerCase f) ".md" then None else Some f
        | None => None
        end in
      let* licenseText := read_if_set w licenseFile in
      let licenses :=
        match ModuleInfo.licenses info with
        | None => None
        | Some (ModuleInfo.One EmptyString) => None
        | Some (ModuleInfo.One license) => Some [license]
        | Some (ModuleInfo.Many all) => Some all
        end in
      let baseUrl := "https://www.npmjs.com/package/" +:+ Package.name dep in
      let url :=
        if encodeVersions then baseUrl +:+ "/v/" +:+ Package.version dep
        else baseUrl in
      ret {| Attribution.packageFqn := key;
             Attribution.packageName := Package.name dep;
             Attribution.packageVersion := Package.version dep;
             Attribution.url := url;
             Attribution.licenses := default [] licenses;
             Attribution.licenseText := licenseText;
             Attribution.noticeText := noticeText |}
  end.

Definition attribute (w : World) (encodeVersions : bool)
    (dependenciesRoot : string) (dependencies : list Package.t)
  : M (list Attribution.t) :=
  match dependencies with
  | [] => ret []
  | _ :: _ =>
      let packages := pkg <$> dependencies in
      let* infos := fetchInfos w dependenciesRoot packages in
      for_each (attribute_dependency w encodeVersions infos) dependencies
  end.

Module Rendered.
Record t : Type := { licenses : string; versions : string }.
End Rendered.

Section render.
Context `{Runtime}.
Variables (packageName : string) (encodeVersions : bool).

Definition first_line : string :=
  "The " +:+ packageName
  +:+ " package includes the following third-party software/licensing:".

Definition ordered (attributions : list Attribution.t) : list Attribution.t :=
  Js.sort (λ a1 a2, localeCompare (Attribution.packageFqn a1)
                                  (Attribution.packageFqn a2))
          attributions.

Definition block_header (attr : Attribution.t) : string :=
  let title :=
    if encodeVersions then Attribution.packageFqn attr
    else Attribution.packageName attr in
  "** " +:+ title +:+ " - " +:+ Attribution.url attr +:+ " | "
  +:+ Js.first_or_undefined (Attribution.licenses attr).

(** One iteration of the loop over [ordered]; the state is the array
    [content] and the object [versions]. For a package with the name of a
    property of [Object.prototype], [versions[attr.packageName]] is the
    inherited value, [?? []] keeps it, and the call of its [push], which
    it does not have, throws. *)
Definition render_step (state : list string * Js.object (list string))
    (attr : Attribution.t) : result (list string * Js.object (list string)) :=
  let '(content, versions) := state in
  let content := content ++ [block_header attr] in
  match Js.read versions (Attribution.packageName attr) with
  | Js.inherited => Throw (TypeError "versionsInUse.push is not a function")
  | found =>
      let versionsInUse :=
        match found with
        | Js.own versionsInUse => versionsInUse
        | _ => []
        end in
      let versionsInUse := versionsInUse ++ [Attribution.packageVersion attr] in
      let versions :=
        Js.set versions (Attribution.packageName attr) versionsInUse in
      let content :=
        match when_truthy (Attribution.noticeText attr) with
        | Some noticeText => content ++ [noticeText]
        | None =>
            match when_truthy (Attribution.licenseText attr) with
            | Some licenseText => content ++ [licenseText]
            | None => content
            end
        end in
      Ok (content ++ [ATTRIBUTION_SEPARATOR], versions)
  end.

(** The array [content] and the object [versions] when the loop ends. *)
Definition render_loop (attributions : list Attribution.t)
  : result (list string * Js.object (list string)) :=
  let content :=
    if bool_decide (0 < length attributions) then [first_line; ""] else [] in
  for_of render_step (content, []) (ordered attributions).

Definition render (attributions : list Attribution.t) : result Rendered.t :=
  match render_loop attributions with
  | Ok (content, versions) =>
      Ok {| Rendered.licenses := Js.join Js.LF (Js.replace_crlf <$> content);
            Rendered.versions := Js.JSON_stringify versions |}
  | Throw e => Throw e
  end.
End render.

(** The license checks of [validate], the same in both revisions. *)
Section license_checks.
Variables (allowedLicenses : list string) (attributions : list Attribution.t).

Definition invalidLicense : list Violation.t :=
  (λ a, {| Violation.type := INVALID_LICENSE;
           Violation.message :=
             "Dependency " +:+ Attribution.packageFqn a
             +:+ " has an invalid license: "
             +:+ Js.first_or_undefined (Attribution.licenses a);
           Violation.fix_ := None |})
  <$> List.filter
        (λ a, match Attribution.licenses a with
              | [license] =>
                  negb (bool_decide (Js.toLowerCase license ∈ allowedLicenses))
              | _ => false
              end)
        attributions.

Definition noLicense : list Violation.t :=
  (λ a, {| Violation.type := NO_LICENSE;
           Violation.message :=
             "Dependency " +:+ Attribution.packageFqn a +:+ " has no license";
           Violation.fix_ := None |})
  <$> List.filter (λ a, bool_decide (length (Attribution.licenses a) = 0))
                  attributions.

Definition multiLicense : list Violation.t :=
  (λ a, {| Violation.type := MULTIPLE_LICENSE;
           Violation.message :=
             "Dependency " +:+ Attribution.packageFqn a
             +:+ " has multiple licenses: "
             +:+ Js.join "," (Attribution.licenses a);
           Violation.fix_ := None |})
  <$> List.filter (λ a, bool_decide (1 < length (Attribution.licenses a)))
                  attributions.
End license_checks.

(** [props.dependencies.filter(d => !props.exclude || !new RegExp(props.exclude).test(d.name))] *)
Definition not_excluded `{Runtime} (exclude : option string) (d : Package.t)
  : M bool :=
  match when_truthy exclude with
  | None => ret true
  | Some pattern =>
      match RegExp_test pattern (Package.name d) with
      | Some matched => ret (negb matched)
      | None => throw (SyntaxError pattern)
      end
  end.

Definition existsSync (fs : gmap string string) (file : string) : bool :=
  bool_decide (is_Some (fs !! file)).

(** ** src/api/_attributions.ts: versions encoded on request *)

Module EncodeVersions.

Module AttributionsProps.
Record t : Type := {
  packageDir : string;
  packageName : string;
  dependencies : list Package.t;
  dependenciesRoot : string;
  filePath : string;
  allowedLicenses : list string;
  exclude : option string;
  encodeVersions : option bool;
}.
End AttributionsProps.

Record t : Type := {
  packageDir : string;
  packageName : string;
  dependencies : list Package.t;
  allowedLicenses : list string;
  dependenciesRoot : string;
  filePath : string;
  encodeVersions : bool;
  attributions : list Attribution.t;
  content : string;
  versions : string;
}.

Section methods.
Context `{Runtime}.

(** The constructor. *)
Definition new (w : World) (props : AttributionsProps.t) : M t :=
  let packageDir := AttributionsProps.packageDir props in
  let packageName := AttributionsProps.packageName props in
  let filePath := path_join packageDir (AttributionsProps.filePath props) in
  let* dependencies :=
    filter_array (not_excluded (AttributionsProps.exclude props))
                 (AttributionsProps.dependencies props) in
  let allowedLicenses :=
    Js.toLowerCase <$> AttributionsProps.allowedLicenses props in
  let dependenciesRoot := AttributionsProps.dependenciesRoot props in
  let encodeVersions := default false (AttributionsProps.encodeVersions props) in
  let* attributions :=
    attribute w encodeVersions dependenciesRoot dependencies in
  let* rendered := lift (render packageName encodeVersions attributions) in
  ret {| packageDir := packageDir;
         packageName := packageName;
         dependencies := dependencies;
         allowedLicenses := allowedLicenses;
         dependenciesRoot := dependenciesRoot;
         filePath := filePath;
         encodeVersions := encodeVersions;
         attributions := attributions;
         content := Rendered.licenses rendered;
         versions := Rendered.versions rendered |}.

(** Flush the generated attributions file to disk. *)
Definition flushAttributions (self : t) (fs : gmap string string)
  : gmap string string :=
  let fs := <[filePath self := content self]> fs in
  if negb (encodeVersions self)
  then <[filePath self +:+ ".versions.json" := versions self]> fs
  else fs.

(** Validate the current notice file against the disk [fs]. *)
Definition validate (self : t) (fs : gmap string string)
  : ViolationsReport.t :=
  let relNoticePath := path_relative (packageDir self) (filePath self) in
  let fix_ := flushAttributions self in
  let missing := negb (existsSync fs (filePath self)) in
  let attributions := if missing then None else fs !! filePath self in
  let outdated :=
    match attributions with
    | Some text => negb (String.eqb text (content self))
    | None => false
    end in
  let violations := [] in
  let violations :=
    if missing
    then violations ++ [ {| Violation.type := MISSING_NOTICE;
                            Violation.message := relNoticePath +:+ " is missing";
                            Violation.fix_ := Some fix_ |} ]
    else violations in
  let violations :=
    if outdated
    then violations ++ [ {| Violation.type := OUTDATED_ATTRIBUTIONS;
                            Violation.message := relNoticePath +:+ " is outdated";
                            Violation.fix_ := Some fix_ |} ]
    else violations in
  let violations :=
    violations ++ invalidLicense (allowedLicenses self)
                                 (EncodeVersions.attributions self) in
  let violations := violations ++ noLicense (EncodeVersions.attributions self) in
  let violations := violations ++ multiLicense (EncodeVersions.attributions self) in
  {| ViolationsReport.violations := violations |}.
End methods.

End EncodeVersions.

(** ** The later revision (after src/cli-main.ts): a versions file *)

Module VersionsPath.

Module AttributionsProps.
Record t : Type := {
  packageDir : string;
  packageName : string;
  dependencies : list Package.t;
  dependenciesRoot : string;
  licensesPath : string;
  allowedLicenses : list string;
  exclude : option string;
  versionsPath : option string;
}.
End AttributionsProps.

Record t : Type := {
  packageDir : string;
  packageName : string;
  dependencies : list Package.t;
  allowedLicenses : list string;
  dependenciesRoot : string;
  licensesPath : string;
  versionsPath : option string;
  attributions : list Attribution.t;
  licenses : string;
  versions : string;
}.

Section methods.
Context `{Runtime}.

(** The constructor. *)
Definition new (w : World) (props : AttributionsProps.t) : M t :=
  let packageDir := AttributionsProps.packageDir props in
  let packageName := AttributionsProps.packageName props in
  let licensesPath := path_join packageDir (AttributionsProps.licensesPath props) in
  let versionsPath :=
    match when_truthy (AttributionsProps.versionsPath props) with
    | Some p => Some (path_join packageDir p)
    | None => None
    end in
  let* dependencies :=
    filter_array (not_excluded (AttributionsProps.exclude props))
                 (AttributionsProps.dependencies props) in
  let allowedLicenses :=
    Js.toLowerCase <$> AttributionsProps.allowedLicenses props in
  let dependenciesRoot := AttributionsProps.dependenciesRoot props in
  let* attributions :=
    attribute w (negb (Js.truthy versionsPath)) dependenciesRoot dependencies in
  let* rendered :=
    lift (render packageName (negb (Js.truthy versionsPath)) attributions) in
  ret {| packageDir := packageDir;
         packageName := packageName;
         dependencies := dependencies;
         allowedLicenses := allowedLicenses;
         dependenciesRoot := dependenciesRoot;
         licensesPath := licensesPath;
         versionsPath := versionsPath;
         attributions := attributions;
         licenses := Rendered.licenses rendered;
         versions := Rendered.versions rendered |}.

(** Flush the generated attributions files to disk. *)
Definition flush (self : t) (fs : gmap string string) : gmap string string :=
  let fs := <[licensesPath self := licenses self]> fs in
  match when_truthy (versionsPath self) with
  | Some versionsPath => <[versionsPath := versions self]> fs
  | None => fs
  end.

(** Validate the current notice file against the disk [fs]. *)
Definition validate (self : t) (fs : gmap string string)
  : ViolationsReport.t :=
  let relLicensesPath := path_relative (packageDir self) (licensesPath self) in
  let relVersionsPath :=
    match when_truthy (versionsPath self) with
    | Some p => path_relative (packageDir self) p
    | None => "undefined"
    end in
  let fix_ := flush self in
  let missingLicenses := negb (existsSync fs (licensesPath self)) in
  let missingVersions :=
    match when_truthy (versionsPath self) with
    | Some p => negb (existsSync fs p)
    | None => false
    end in
  let licenses := if missingLicenses then None else fs !! licensesPath self in
  let versions :=
    if missingVersions || negb (Js.truthy (versionsPath self)) then None
    else p ← versionsPath self; fs !! p in
  let outdatedLicenses :=
    match licenses with
    | Some text => negb (String.eqb text (VersionsPath.licenses self))
    | None => false
    end in
  let outdatedVersions :=
    match versions with
    | Some text => negb (String.eqb text (VersionsPath.versions self))
    | None => false
    end in
  let violations := [] in
  let violations :=
    if missingLicenses
    then violations ++ [ {| Violation.type := MISSING_LICENSES;
                            Violation.message := relLicensesPath +:+ " is missing";
                            Violation.fix_ := Some fix_ |} ]
    else violations in
  let violations :=
    if outdatedLicenses
    then violations ++ [ {| Violation.type := OUTDATED_LICENSES;
                            Violation.message := relLicensesPath +:+ " is outdated";
                            Violation.fix_ := Some fix_ |} ]
    else violations in
  let violations :=
    if missingVersions
    then violations ++ [ {| Violation.type := MISSING_VERSIONS;
                            Violation.message := relVersionsPath +:+ " is missing";
                            Violation.fix_ := Some fix_ |} ]
    else violations in
  let violations :=
    if outdatedVersions
    then violations ++ [ {| Violation.type := OUTDATED_VERSIONS;
                            Violation.message := relVersionsPath +:+ " is outdated";
                            Violation.fix_ := Some fix_ |} ]
    else violations in
  let violations := violations ++ invalidLicense (allowedLicenses self) (attributions self) in
  let violations := violations ++ noLicense (attributions self) in
  let violations := violations ++ multiLicense (attributions self) in
  {| ViolationsReport.violations := violations |}.
End methods.

End VersionsPath.

(** Modelled from the spec: the fix pass of the validation orchestrator
    ([Bundle.validate] with [fix: true], in src/api/bundle.ts, whose source
    is not available). Each fixable violation's fixer is invoked exactly
    once, in the order in which the violations were produced. *)
Definition apply_fixes (report : ViolationsReport.t) (fs : gmap string string)
  : gmap string string :=
  foldl (λ fs v, match Violation.fix_ v with
                 | Some fixer => fixer fs
                 | None => fs
                 end)
        fs (ViolationsReport.violations report).

(** ** A concrete runtime and a concrete package tree

    Closed examples need an instance of [Runtime]. [caseless_compare] orders
    strings by their lower-cased code units, which is how the default
    collation of the runtime orders two strings that first differ in two
    letters, not only by case, or in two digits; [literal_test] is
    [RegExp.prototype.test] for patterns without metacharacters (a search
    for the pattern as a substring); the path functions are those of a POSIX
    system on normalized paths. *)

Definition caseless_compare (a b : string) : Z :=
  match String.compare (Js.toLowerCase a) (Js.toLowerCase b) with
  | Lt => (-1)%Z
  | Eq => 0%Z
  | Gt => 1%Z
  end.

Definition literal_test (pattern s : string) : option bool :=
  Some (bool_decide (is_Some (String.index 0 pattern s))).

Definition posix_join (dir file : string) : string := dir +:+ "/" +:+ file.

Definition posix_relative (from to : string) : string :=
  if String.prefix (from +:+ "/") to
  then String.substring (String.length from + 1)
                        (String.length to - (String.length from + 1)) to
  else to.

Definition node : Runtime :=
  {| localeCompare := caseless_compare;
     RegExp_test := literal_test;
     path_join := posix_join;
     path_relative := posix_relative |}.

(** The package tree of the tests: [consumer] depends on [dep1] and [dep2].
    The probe run in node_modules knows [dep1] only; [dep2] is found by the
    probe run in its own directory. *)
Definition dep1 : Package.t :=
  {| Package.name := "dep1"; Package.version := "0.0.0";
     Package.path := "/consumer/node_modules/dep1" |}.

Definition dep2 : Package.t :=
  {| Package.name := "dep2"; Package.version := "0.0.0";
     Package.path := "/consumer/node_modules/dep2" |}.

Definition dep1_info (license : option ModuleInfo.licenses_field) : ModuleInfo.t :=
  {| ModuleInfo.licenses := license;
     ModuleInfo.licenseFile := Some "/consumer/node_modules/dep1/LICENSE";
     ModuleInfo.noticeFile := None |}.

Definition dep2_info : ModuleInfo.t :=
  {| ModuleInfo.licenses := Some (ModuleInfo.One "Apache-2.0");
     ModuleInfo.licenseFile := Some "/consumer/node_modules/dep2/README.MD";
     ModuleInfo.noticeFile := Some "/consumer/node_modules/dep2/NOTICE" |}.

Definition consumer_probe (license : option ModuleInfo.licenses_field)
    (cwd : string) (packages : list string)
  : option (gmap string ModuleInfo.t) :=
  if String.eqb cwd "/consumer/node_modules"
  then Some (if bool_decide ("dep1@0.0.0" ∈ packages)
             then {[ "dep1@0.0.0" := dep1_info license ]} else ∅)
  else if String.eqb cwd "/consumer/node_modules/dep2"
  then Some {[ "dep2@0.0.0" := dep2_info ]}
  else Some ∅.

Definition consumer_files : gmap string string :=
  {[ "/consumer/node_modules/dep1/LICENSE" := "MIT License" +:+ Js.CRLF +:+ "Copyright";
     "/consumer/node_modules/dep2/README.MD" := "# dep2";
     "/consumer/node_modules/dep2/NOTICE" := "dep2 notice" ]}.

(** [consumer_world license] is the tree in which [dep1] declares [license]. *)
Definition consumer_world (license : option ModuleInfo.licenses_field) : World :=
  {| probe := consumer_probe license; files := consumer_files |}.

Definition consumer_props (allowed : list string) (exclude versionsPath : option string)
  : VersionsPath.AttributionsProps.t :=
  {| VersionsPath.AttributionsProps.packageDir := "/consumer";
     VersionsPath.AttributionsProps.packageName := "consumer";
     VersionsPath.AttributionsProps.dependencies := [dep1; dep2];
     VersionsPath.AttributionsProps.dependenciesRoot := "/consumer/node_modules";
     VersionsPath.AttributionsProps.licensesPath := "THIRD_PARTY_LICENSES";
     VersionsPath.AttributionsProps.allowedLicenses := allowed;
     VersionsPath.AttributionsProps.exclude := exclude;
     VersionsPath.AttributionsProps.versionsPath := versionsPath |}.

Definition consumer_props_v1 (allowed : list string) (exclude : option string)
    (encodeVersions : option bool) : EncodeVersions.AttributionsProps.t :=
  {| EncodeVersions.AttributionsProps.packageDir := "/consumer";
     EncodeVersions.AttributionsProps.packageName := "consumer";
     EncodeVersions.AttributionsProps.dependencies := [dep1; dep2];
     EncodeVersions.AttributionsProps.dependenciesRoot := "/consumer/node_modules";
     EncodeVersions.AttributionsProps.filePath := "THIRD_PARTY_LICENSES";
     EncodeVersions.AttributionsProps.allowedLicenses := allowed;
     EncodeVersions.AttributionsProps.exclude := exclude;
     EncodeVersions.AttributionsProps.encodeVersions := encodeVersions |}.

(** ** The document as a sequence of blocks

    The loop of [render] pushes, for every attribution, a header, at most
    one text and the separator. [block] is that sequence for one
    attribution, and [record_version] is what the same iteration does to
    the versions index: it adds the version to the versions of the name,
    or throws when the name is one that the object inherits. *)

Definition block_body (attr : Attribution.t) : list string :=
  match when_truthy (Attribution.noticeText attr) with
  | Some noticeText => [noticeText]
  | None =>
      match when_truthy (Attribution.licenseText attr) with
      | Some licenseText => [licenseText]
      | None => []
      end
  end.

Definition block (encodeVersions : bool) (attr : Attribution.t) : list string :=
  block_header encodeVersions attr :: block_body attr ++ [ATTRIBUTION_SEPARATOR].

Definition record_version (versions : Js.object (list string))
    (attr : Attribution.t) : result (Js.object (list string)) :=
  match Js.read versions (Attribution.packageName attr) with
  | Js.inherited => Throw (TypeError "versionsInUse.push is not a function")
  | Js.own versionsInUse =>
      Ok (Js.set versions (Attribution.packageName attr)
                 (versionsInUse ++ [Attribution.packageVersion attr]))
  | Js.undefined =>
      Ok (Js.set versions (Attribution.packageName attr)
                 ([] ++ [Attribution.packageVersion attr]))
  end.

(** The versions index built by [render], when its loop does not throw. *)
Definition versions_index `{Runtime} (attributions : list Attribution.t)
  : result (Js.object (list string)) :=
  for_of record_version [] (ordered attributions).

(** No attribution is for a package with the name of a property of
    [Object.prototype]. *)
Definition plain_names (attributions : list Attribution.t) : Prop :=
  ∀ a, a ∈ attributions → Attribution.packageName a ∉ Js.Object_prototype.

(** "Not greater" for the comparison of [render]'s sort. *)
Definition fqn_le `{Runtime} (a1 a2 : Attribution.t) : Prop :=
  (localeCompare (Attribution.packageFqn a1) (Attribution.packageFqn a2) <= 0)%Z.

(** Ascending code-point order on strings. *)
Definition code_point_le (s1 s2 : string) : Prop := String.leb s1 s2 = true.

(** Two attributions whose names differ in case. *)
Definition attribution_B : Attribution.t :=
  {| Attribution.packageFqn := "B@1.0.0";
     Attribution.packageName := "B";
     Attribution.packageVersion := "1.0.0";
     Attribution.url := "https://www.npmjs.com/package/B/v/1.0.0";
     Attribution.licenses := ["MIT"];
     Attribution.licenseText := None;
     Attribution.noticeText := None |}.

Definition attribution_a : Attribution.t :=
  {| Attribution.packageFqn := "a@1.0.0";
     Attribution.packageName := "a";
     Attribution.packageVersion := "1.0.0";
     Attribution.url := "https://www.npmjs.com/package/a/v/1.0.0";
     Attribution.licenses := ["MIT"];
     Attribution.licenseText := None;
     Attribution.noticeText := None |}.

(** ** Notions used to state the properties *)

(** The entry of the probe's output that the loop of [attribute] ends up
    with for [dep]: the one of the run in [dependenciesRoot] ([infos]), or
    else the one of the run in the directory of [dep]. *)
Definition located_info (w : World) (infos : gmap string ModuleInfo.t)
    (dep : Package.t) : option ModuleInfo.t :=
  match infos !! pkg dep with
  | Some info => Some info
  | None => own ← probe w (Package.path dep) [pkg dep]; own !! pkg dep
  end.

(** The probe invocation that [dep] adds: none when the run in
    [dependenciesRoot] knows it, one in its own directory otherwise. *)
Definition fallback_calls (infos : gmap string ModuleInfo.t) (dep : Package.t)
  : ProbeLog :=
  match infos !! pkg dep with
  | Some _ => []
  | None => [(Package.path dep, [pkg dep])]
  end.

(** A dependency survives the [exclude] filter of the constructor. *)
Definition kept `{Runtime} (exclude : option string) (d : Package.t) : bool :=
  match when_truthy exclude with
  | None => true
  | Some pattern =>
      bool_decide (RegExp_test pattern (Package.name d) = Some false)
  end.

(** The allow-list contains [license] up to case. *)
Definition allowed_ignoring_case (allowedLicenses : list string)
    (license : string) : bool :=
  existsb (λ l, String.eqb (Js.toLowerCase l) (Js.toLowerCase license))
          allowedLicenses.

(** The license violation of one attribution in the words of the
    specification: it is decided by the number of declared licenses. *)
Definition license_violation_of (allowedLicenses : list string)
    (a : Attribution.t) : option Violation.t :=
  match Attribution.licenses a with
  | [] =>
      Some {| Violation.type := NO_LICENSE;
              Violation.message :=
                "Dependency " +:+ Attribution.packageFqn a +:+ " has no license";
              Violation.fix_ := None |}
  | [license] =>
      if allowed_ignoring_case allowedLicenses license then None
      else Some {| Violation.type := INVALID_LICENSE;
                   Violation.message :=
                     "Dependency " +:+ Attribution.packageFqn a
                     +:+ " has an invalid license: " +:+ license;
                   Violation.fix_ := None |}
  | first :: second :: more =>
      Some {| Violation.type := MULTIPLE_LICENSE;
              Violation.message :=
                "Dependency " +:+ Attribution.packageFqn a
                +:+ " has multiple licenses: "
                +:+ first +:+ "," +:+ Js.join "," (second :: more);
              Violation.fix_ := None |}
  end.

Definition is_license_violation (v : Violation.t) : bool :=
  bool_decide (Violation.type v ∈ [INVALID_LICENSE; NO_LICENSE; MULTIPLE_LICENSE]).

(** What [attribute] reads for a dependency whose probe entry is [info]:
    the notice, the license file that is not a markdown file, its text, and
    the declared licenses as a list. *)
Definition notice_text (w : World) (info : ModuleInfo.t) : option string :=
  f ← when_truthy (ModuleInfo.noticeFile info); files w !! f.

Definition license_file (info : ModuleInfo.t) : option string :=
  f ← when_truthy (ModuleInfo.licenseFile info);
  if Js.endsWith (Js.toLowerCase f) ".md" then None else Some f.

Definition license_text (w : World) (info : ModuleInfo.t) : option string :=
  f ← license_file info; files w !! f.

Definition declared_licenses (info : ModuleInfo.t) : list string :=
  match ModuleInfo.licenses info with
  | None => []
  | Some (ModuleInfo.One EmptyString) => []
  | Some (ModuleInfo.One license) => [license]
  | Some (ModuleInfo.Many all) => all
  end.

Definition package_url (encodeVersions : bool) (dep : Package.t) : string :=
  let baseUrl := "https://www.npmjs.com/package/" +:+ Package.name dep in
  if encodeVersions then baseUrl +:+ "/v/" +:+ Package.version dep
  else baseUrl.

(** The attribution that the loop of [attribute] pushes for [dep]. *)
Definition attribution_of (w : World) (encodeVersions : bool)
    (dep : Package.t) (info : ModuleInfo.t) : Attribution.t :=
  {| Attribution.packageFqn := pkg dep;
     Attribution.packageName := Package.name dep;
     Attribution.packageVersion := Package.version dep;
     Attribution.url := package_url encodeVersions dep;
     Attribution.licenses := declared_licenses info;
     Attribution.licenseText := license_text w info;
     Attribution.noticeText := notice_text w info |}.

(** The entry [info] of the probe's output names [file] as its notice
    file or as its license file. *)
Definition names_file (info : ModuleInfo.t) (file : string) : Prop :=
  ModuleInfo.noticeFile info = Some file
  ∨ ModuleInfo.licenseFile info = Some file.

(** The files named by [info] that [attribute] reads exist. *)
Definition readable (w : World) (info : ModuleInfo.t) : Prop :=
  (∀ f, when_truthy (ModuleInfo.noticeFile info) = Some f → is_Some (files w !! f))
  ∧ (∀ f, license_file info = Some f → is_Some (files w !! f)).

(** [a] is the attribution of [dep] in a successful run of the loop. *)
Definition attributed (w : World) (encodeVersions : bool)
    (infos : gmap string ModuleInfo.t) (dep : Package.t) (a : Attribution.t)
  : Prop :=
  ∃ info, located_info w infos dep = Some info
          ∧ readable w info
          ∧ a = attribution_of w encodeVersions dep info.

(** A violation about the file [path] that [flush] repairs. *)
Definition fixable `{Runtime} (self : VersionsPath.t) (type : ViolationType)
    (path what : string) : Violation.t :=
  {| Violation.type := type;
     Violation.message :=
       path_relative (VersionsPath.packageDir self) path +:+ what;
     Violation.fix_ := Some (VersionsPath.flush self) |}.

(** The report contains a violation of the given type. *)
Definition reported (type : ViolationType) (report : ViolationsReport.t) : Prop :=
  type ∈ Violation.type <$> ViolationsReport.violations report.

(** The violations of the report that are about the licenses file or the
    versions file. *)
Definition about_files (v : Violation.t) : Prop :=
  Violation.type v
  ∈ [MISSING_LICENSES; OUTDATED_LICENSES; MISSING_VERSIONS; OUTDATED_VERSIONS].

(** The files on [disk] hold the canonical content of [self]. *)
Definition up_to_date (self : VersionsPath.t) (disk : gmap string string) : Prop :=
  disk !! VersionsPath.licensesPath self = Some (VersionsPath.licenses self)
  ∧ ∀ p, when_truthy (VersionsPath.versionsPath self) = Some p
         → disk !! p = Some (VersionsPath.versions self).

(** The license checks of [self]. *)
Definition license_checks (self : VersionsPath.t) : list Violation.t :=
  invalidLicense (VersionsPath.allowedLicenses self) (VersionsPath.attributions self)
  ++ noLicense (VersionsPath.attributions self)
  ++ multiLicense (VersionsPath.attributions self).

(** The configuration of the tests with a separate versions file. *)
Definition separate_versions_props : VersionsPath.AttributionsProps.t :=
  consumer_props ["MIT"; "Apache-2.0"] None (Some "THIRD_PARTY_VERSIONS").

(** The first code unit of [s] is a line feed. *)
Definition starts_with_LF (s : string) : bool :=
  match s with
  | String c _ => Ascii.eqb c "010"%char
  | EmptyString => false
  end.

(** The attribution of [dep1] when it declares no license. *)
Definition attribution_unlicensed : Attribution.t :=
  attribution_of (consumer_world None) false dep1 (dep1_info None).

(** A text is present when it is defined and not empty: the test that
    [render] makes with [if (attr.noticeText)] and [if (attr.licenseText)]
    and [attribute] with [info.noticeFile ? ... : undefined]. *)
Definition present (v : option string) : Prop := Js.truthy v = true.

(** A dependency that no run of the probe knows. *)
Definition dep3 : Package.t :=
  {| Package.name := "dep3"; Package.version := "1.0.0";
     Package.path := "/consumer/node_modules/dep3" |}.

(** The tree of the tests with one more file, which no entry of the probe
    names. *)
Definition consumer_world_with_readme : World :=
  {| probe := consumer_probe (Some (ModuleInfo.One "MIT"));
     files := <["/consumer/README.md" := "consumer"]> consumer_files |}.

(** [compareFn] does not put [x] after [y]. *)
Definition not_greater {A : Type} (compareFn : A → A → Z) (x y : A) : Prop :=
  (compareFn x y <= 0)%Z.

(** Case analysis on a membership in a list that is written out. *)
Ltac elems H :=
  simpl in H;
  repeat match type of H with
         | _ ∈ _ :: _ => apply elem_of_cons in H as [H|H]
         | _ ∈ [] => by apply elem_of_nil in H
         end;
  try discriminate.

(** ** Notions used to state further properties *)

(** The file that [flushAttributions] writes beside the notice file. *)
Definition versions_sibling (self : EncodeVersions.t) : string :=
  EncodeVersions.filePath self +:+ ".versions.json".

(** The attribution passes the license checks: it has exactly one license,
    and that license, lower-cased, is in the (lower-cased) allow-list. *)
Definition single_allowed_license (allowedLicenses : list string)
    (a : Attribution.t) : Prop :=
  ∃ license, Attribution.licenses a = [license]
             ∧ Js.toLowerCase license ∈ allowedLicenses.

(** The versions of the attributions of the package [name], in the order
    of the list. *)
Definition versions_of (name : string) (l : list Attribution.t) : list string :=
  Attribution.packageVersion
  <$> List.filter (λ a, bool_decide (Attribution.packageName a = name)) l.

(** [s] contains a carriage return. *)
Fixpoint has_CR (s : string) : bool :=
  match s with
  | EmptyString => false
  | String c s' => Ascii.eqb c "013"%char || has_CR s'
  end.

(** Every carriage return of [s] is directly followed by a line feed: the
    line endings of [s] are CR LF or LF. *)
Fixpoint CR_only_before_LF (s : string) : bool :=
  match s with
  | EmptyString => true
  | String c s' =>
      (negb (Ascii.eqb c "013"%char) || starts_with_LF s')
      && CR_only_before_LF s'
  end.

(** The strings of an attribution that [render] puts into the document
    have CR LF or LF line endings only. *)
Definition CR_only_before_LF_in (a : Attribution.t) : bool :=
  CR_only_before_LF (Attribution.packageFqn a)
  && CR_only_before_LF (Attribution.packageName a)
  && CR_only_before_LF (Attribution.url a)
  && CR_only_before_LF (Js.first_or_undefined (Attribution.licenses a))
  && CR_only_before_LF (default "" (Attribution.noticeText a))
  && CR_only_before_LF (default "" (Attribution.licenseText a)).

(** The attribution of [dep1] with the MIT license; its license text has
    a CR LF line ending. *)
Definition attribution_MIT : Attribution.t :=
  attribution_of (consumer_world (Some (ModuleInfo.One "MIT"))) true
    dep1 (dep1_info (Some (ModuleInfo.One "MIT"))).

(** The same attribution when the versions are not encoded. *)
Definition attribution_MIT_plain : Attribution.t :=
  attribution_of (consumer_world (Some (ModuleInfo.One "MIT"))) false
    dep1 (dep1_info (Some (ModuleInfo.One "MIT"))).

(** The tree of the tests without the files of the dependencies. *)
Definition consumer_world_without_files : World :=
  {| probe := consumer_probe (Some (ModuleInfo.One "MIT")); files := ∅ |}.

(** A runtime in which the pattern that consists of an opening parenthesis
    does not compile (an unterminated group). *)
Definition checked_test (pattern s : string) : option bool :=
  if String.eqb pattern "(" then None else literal_test pattern s.

Definition node_checked : Runtime :=
  {| localeCompare := caseless_compare;
     RegExp_test := checked_test;
     path_join := posix_join;
     path_relative := posix_relative |}.

(** An attribution without licenses for a package with the name of a
    property of [Object.prototype]. *)
Definition attribution_constructor : Attribution.t :=
  {| Attribution.packageFqn := "constructor@1.0.0";
     Attribution.packageName := "constructor";
     Attribution.packageVersion := "1.0.0";
     Attribution.url := "https://www.npmjs.com/package/constructor";
     Attribution.licenses := [];
     Attribution.licenseText := None;
     Attribution.noticeText := None |}.

(** *** A runtime with another default locale

    [localeCompare] is called without a locale, so it compares in the
    default locale of the process. In the Czech locale the digraph ch is a
    letter of its own, between h and i. [czech_compare] orders strings by
    the letters of their lower-cased forms in that alphabet: the key of a
    code unit is twice its code, and the key of ch is the odd number that
    follows the key of h. This is how the Czech collation orders two
    strings that first differ in two lower-case letters. *)
Fixpoint czech_keys (s : string) : list N :=
  match s with
  | EmptyString => []
  | String c s' =>
      match s' with
      | String d rest =>
          if Ascii.eqb c "c"%char && Ascii.eqb d "h"%char
          then (2 * 104 + 1)%N :: czech_keys rest
          else (2 * N_of_ascii c)%N :: czech_keys s'
      | EmptyString => [(2 * N_of_ascii c)%N]
      end
  end.

Fixpoint compare_keys (k1 k2 : list N) : Z :=
  match k1, k2 with
  | [], [] => 0%Z
  | [], _ :: _ => (-1)%Z
  | _ :: _, [] => 1%Z
  | x :: k1', y :: k2' =>
      if (x <? y)%N then (-1)%Z
      else if (y <? x)%N then 1%Z
      else compare_keys k1' k2'
  end.

Definition czech_compare (a b : string) : Z :=
  compare_keys (czech_keys (Js.toLowerCase a)) (czech_keys (Js.toLowerCase b)).

Definition node_cs : Runtime :=
  {| localeCompare := czech_compare;
     RegExp_test := literal_test;
     path_join := posix_join;
     path_relative := posix_relative |}.

(** A package that depends on chalk and color; the probe knows both. *)
Definition chalk : Package.t :=
  {| Package.name := "chalk"; Package.version := "5.3.0";
     Package.path := "/app/node_modules/chalk" |}.

Definition color : Package.t :=
  {| Package.name := "color"; Package.version := "4.2.3";
     Package.path := "/app/node_modules/color" |}.

Definition MIT_info : ModuleInfo.t :=
  {| ModuleInfo.licenses := Some (ModuleInfo.One "MIT");
     ModuleInfo.licenseFile := None;
     ModuleInfo.noticeFile := None |}.

Definition app_world : World :=
  {| probe := λ _ _, Some {[ "chalk@5.3.0" := MIT_info;
                             "color@4.2.3" := MIT_info ]};
     files := ∅ |}.

Definition app_props : EncodeVersions.AttributionsProps.t :=
  {| EncodeVersions.AttributionsProps.packageDir := "/app";
     EncodeVersions.AttributionsProps.packageName := "app";
     EncodeVersions.AttributionsProps.dependencies := [chalk; color];
     EncodeVersions.AttributionsProps.dependenciesRoot := "/app/node_modules";
     EncodeVersions.AttributionsProps.filePath := "THIRD_PARTY_LICENSES";
     EncodeVersions.AttributionsProps.allowedLicenses := ["MIT"];
     EncodeVersions.AttributionsProps.exclude := None;
     EncodeVersions.AttributionsProps.encodeVersions := None |}.

(** ** src/cli-main.ts: the arguments of the command line

    The loops of [cliMain] that turn the values of the options [resource]
    and [external] into properties of the bundle. They start from [argv],
    the result of the option parser. *)

(** An element of [argv.resource] or [argv.external]. Both options are
    declared as arrays without a type for their elements, so the parser
    passes an argument that looks like a number as a number, and every
    other argument as a string. The loops cast the arrays to [string[]];
    the value of a number is never read. *)
Inductive argv_value : Type :=
| a_string (s : string)
| a_number.

(** [s.split(sep)] for a separator of one code unit. The array is never
    empty; it is given as its first element and the rest. *)
Fixpoint split (sep : ascii) (s : string) : string * list string :=
  match s with
  | EmptyString => (EmptyString, [])
  | String c s' =>
      let '(part, parts) := split sep s' in
      if Ascii.eqb c sep then (EmptyString, part :: parts)
      else (String c part, parts)
  end.

(** A value in a template literal; [undefined] is printed as its name. *)
Definition template (v : option string) : string := default "undefined" v.

(** One iteration of the loop over [argv.resource]; a property can hold
    [undefined]. A number has no [split]. The assignment to the key
    [__proto__] runs the setter that the object inherits, which ignores a
    string and [undefined]: no property is created. *)
Definition resources_step (resources : Js.object (option string))
    (resource : argv_value) : result (Js.object (option string)) :=
  match resource with
  | a_number => Throw (TypeError "resource.split is not a function")
  | a_string resource =>
      let parts := split ":" resource in
      if bool_decide (parts.1 = "__proto__") then Ok resources
      else Ok (Js.set resources parts.1 (head parts.2))
  end.

Definition resources_loop (resource : list argv_value)
  : result (Js.object (option string)) :=
  for_of resources_step [] resource.

Definition unsupported_dependency_type (type : option string) (name : string)
  : exception :=
  Error ("Unsupported dependency type '" +:+ template type
         +:+ "' for external package '" +:+ name
         +:+ "'. Supported types are: ['optional', 'runtime']").

(** One iteration of the loop over [argv.external]; the state is the
    arrays [optionalExternals] and [runtimeExternals]. *)
Definition externals_step (state : list string * list string)
    (external : argv_value) : result (list string * list string) :=
  let '(optionalExternals, runtimeExternals) := state in
  match external with
  | a_number => Throw (TypeError "external.split is not a function")
  | a_string external =>
      let parts := split ":" external in
      let name := parts.1 in
      let type := head parts.2 in
      if bool_decide (type = Some "optional")
      then Ok (optionalExternals ++ [name], runtimeExternals)
      else if bool_decide (type = Some "runtime")
      then Ok (optionalExternals, runtimeExternals ++ [name])
      else Throw (unsupported_dependency_type type name)
  end.

(** [optionalExternals] and [runtimeExternals] after the loop. *)
Definition externals_loop (external : list argv_value)
  : result (list string * list string) :=
  for_of externals_step ([], []) external.

(** ** Notions used to state the properties of the command line *)

(** The name and the type that the loops read from an argument: the text
    before the first colon, and the text between the first and the second
    colon when there is a colon. *)
Definition argument_name (argument : string) : string := (split ":" argument).1.

Definition argument_type (argument : string) : option string :=
  head (split ":" argument).2.

(** [s] contains no colon. *)
Fixpoint colon_free (s : string) : bool :=
  match s with
  | EmptyString => true
  | String c s' => negb (Ascii.eqb c ":") && colon_free s'
  end.

(** The argument name:type of the command line. *)
Definition argument (p : string * string) : string := p.1 +:+ ":" +:+ p.2.

(** The names of the pairs with the given second component, in their
    order. *)
Definition names_of_type (type : string) (l : list (string * string))
  : list string :=
  fst <$> List.filter (λ p, bool_decide (p.2 = type)) l.

(** * Properties *)

(** ** Sorting *)

Section sort_facts.
Context {A : Type} (compareFn : A → A → Z).

Lemma sort_insert_perm x l : Js.sort_insert compareFn x l ≡ₚ x :: l.
Proof.
  induction l as [|y l IH]; simpl; [done|].
  destruct (compareFn x y <=? 0)%Z; [done|].
  rewrite IH. apply Permutation_swap.
Qed.

Lemma sort_perm l : Js.sort compareFn l ≡ₚ l.
Proof.
  induction l as [|x l IH]; simpl; [done|].
  rewrite sort_insert_perm. by f_equiv.
Qed.

Hypothesis le_total :
  ∀ x y, not_greater compareFn x y ∨ not_greater compareFn y x.
Hypothesis le_trans :
  ∀ x y z, not_greater compareFn x y → not_greater compareFn y z
           → not_greater compareFn x z.

Lemma sort_insert_sorted x l :
  StronglySorted (not_greater compareFn) l
  → StronglySorted (not_greater compareFn) (Js.sort_insert compareFn x l).
Proof.
  induction 1 as [|y l Hl IH Hy]; simpl.
  - repeat constructor.
  - destruct (compareFn x y <=? 0)%Z eqn:Hxy.
    + apply Z.leb_le in Hxy. constructor; [by constructor|].
      constructor; [done|].
      eapply Forall_impl; [exact Hy|]. intros z Hz. by eapply le_trans.
    + apply Z.leb_gt in Hxy. constructor; [done|].
      rewrite sort_insert_perm. constructor; [|done].
      destruct (le_total x y) as [Hle|Hle]; [|done].
      unfold not_greater in Hle. lia.
Qed.

Lemma sort_sorted l :
  StronglySorted (not_greater compareFn) (Js.sort compareFn l).
Proof.
  induction l as [|x l IH]; simpl; [constructor|].
  by apply sort_insert_sorted.
Qed.
End sort_facts.

(** ** Names that are not inherited *)

Lemma plain_names_check (attributions : list Attribution.t) :
  forallb (λ a, bool_decide (Attribution.packageName a ∉ Js.Object_prototype))
          attributions = true
  → plain_names attributions.
Proof.
  intros Hall a Ha. rewrite forallb_forall in Hall.
  apply list_elem_of_In in Ha. specialize (Hall a Ha).
  by apply bool_decide_eq_true in Hall.
Qed.

(** ** Loops that can throw *)

Lemma for_of_app {S A} (body : S → A → result S) state l1 l2 :
  for_of body state (l1 ++ l2)
  = match for_of body state l1 with
    | Ok state' => for_of body state' l2
    | Throw e => Throw e
    end.
Proof.
  revert state. induction l1 as [|x l1 IH]; intros state; [done|].
  cbn [app for_of]. by destruct (body state x).
Qed.

(** ** Reading and recording a version *)

Lemma record_version_Ok versions a versions' :
  record_version versions a = Ok versions'
  → versions'
    = Js.set versions (Attribution.packageName a)
             (default [] (Js.get versions (Attribution.packageName a))
              ++ [Attribution.packageVersion a])
    ∧ (is_Some (Js.get versions (Attribution.packageName a))
       ∨ Attribution.packageName a ∉ Js.Object_prototype).
Proof.
  unfold record_version, Js.read.
  destruct (Js.get versions (Attribution.packageName a)) as [vs|].
  - intros [= <-]. split; [done|]. left. by eexists.
  - case_bool_decide; [done|]. intros [= <-]. split; [done|]. by right.
Qed.

Lemma record_version_plain versions a :
  Attribution.packageName a ∉ Js.Object_prototype
  → record_version versions a
    = Ok (Js.set versions (Attribution.packageName a)
                 (default [] (Js.get versions (Attribution.packageName a))
                  ++ [Attribution.packageVersion a])).
Proof.
  intros Hplain. unfold record_version, Js.read.
  destruct (Js.get versions (Attribution.packageName a)) as [vs|]; [done|].
  by rewrite bool_decide_eq_false_2.
Qed.

Lemma record_version_Throw versions a e :
  record_version versions a = Throw e
  → e = TypeError "versionsInUse.push is not a function"
    ∧ Attribution.packageName a ∈ Js.Object_prototype.
Proof.
  unfold record_version, Js.read.
  destruct (Js.get versions (Attribution.packageName a)) as [vs|]; [done|].
  case_bool_decide; [|done]. by intros [= <-].
Qed.

Lemma record_versions_plain versions l :
  (∀ a, a ∈ l → Attribution.packageName a ∉ Js.Object_prototype)
  → ∃ versions', for_of record_version versions l = Ok versions'.
Proof.
  revert versions. induction l as [|a l IH]; intros versions Hl; [by eexists|].
  cbn [for_of]. rewrite record_version_plain by (apply Hl; left).
  apply IH. intros a' Ha'. apply Hl. by right.
Qed.

Lemma record_versions_Throw versions l e :
  for_of record_version versions l = Throw e
  → e = TypeError "versionsInUse.push is not a function"
    ∧ ∃ a, a ∈ l ∧ Attribution.packageName a ∈ Js.Object_prototype.
Proof.
  revert versions. induction l as [|a l IH]; intros versions; [done|].
  cbn [for_of]. destruct (record_version versions a) as [versions1|e1] eqn:Ha.
  - intros (-> & a' & Ha' & Hname)%IH. split; [done|].
    exists a'. split; [by right|done].
  - intros [= <-]. apply record_version_Throw in Ha as [-> Hname].
    split; [done|]. exists a. split; [left|done].
Qed.

Lemma get_set_keys {V} (o : Js.object V) k v k' :
  is_Some (Js.get (Js.set o k v) k') ↔ k' = k ∨ is_Some (Js.get o k').
Proof.
  induction o as [|[k0 v0] o IH]; simpl.
  - case_decide; [naive_solver|]. split; [by intros [? ?]|].
    intros [->|[? ?]]; done.
  - destruct (decide (k0 = k)) as [->|Hne]; simpl.
    + case_decide; [naive_solver|]. naive_solver.
    + case_decide; [naive_solver|]. exact IH.
Qed.

(** The loop creates a property only for a name that is not one of
    [Object.prototype]. *)
Lemma record_versions_Ok_plain versions l versions' :
  (∀ k, is_Some (Js.get versions k) → k ∉ Js.Object_prototype)
  → for_of record_version versions l = Ok versions'
  → (∀ a, a ∈ l → Attribution.packageName a ∉ Js.Object_prototype)
    ∧ (∀ k, is_Some (Js.get versions' k) → k ∉ Js.Object_prototype).
Proof.
  revert versions. induction l as [|a l IH]; intros versions Hkeys; cbn [for_of].
  - intros [= <-]. split; [by intros a ?%elem_of_nil|done].
  - destruct (record_version versions a) as [versions1|e1] eqn:Ha; [|done].
    apply record_version_Ok in Ha as [-> Hname].
    assert (Attribution.packageName a ∉ Js.Object_prototype) as Hplain.
    { destruct Hname as [Hown|Hplain]; [by apply Hkeys|done]. }
    intros [Hl Hkeys']%IH.
    + split; [|done]. by intros a' [->|Ha']%elem_of_cons; [|apply Hl].
    + intros k [->|Hk]%get_set_keys; [done|by apply Hkeys].
Qed.

(** ** The loop of [render] in closed form *)

Section render_facts.
Context `{Runtime}.
Variables (packageName : string) (encodeVersions : bool).

Lemma render_step_spec content versions attr :
  render_step encodeVersions (content, versions) attr
  = match record_version versions attr with
    | Ok versions' => Ok (content ++ block encodeVersions attr, versions')
    | Throw e => Throw e
    end.
Proof.
  unfold render_step, block, block_body, record_version.
  destruct (Js.read versions (Attribution.packageName attr)); [|done|];
    (destruct (when_truthy (Attribution.noticeText attr));
     [|destruct (when_truthy (Attribution.licenseText attr))]);
    by rewrite <- ?(assoc_L (++)).
Qed.

Lemma render_steps_spec l content versions :
  for_of (render_step encodeVersions) (content, versions) l
  = match for_of record_version versions l with
    | Ok versions' => Ok (content ++ l ≫= block encodeVersions, versions')
    | Throw e => Throw e
    end.
Proof.
  revert content versions.
  induction l as [|a l IH]; intros content versions; cbn [for_of mbind list_bind].
  - by rewrite (right_id_L [] (++)).
  - rewrite render_step_spec.
    destruct (record_version versions a) as [versions1|e]; [|done].
    rewrite IH. destruct (for_of record_version versions1 l); [|done].
    by rewrite <- (assoc_L (++)).
Qed.

Lemma render_loop_spec attributions :
  render_loop packageName encodeVersions attributions
  = match versions_index attributions with
    | Ok index =>
        Ok ((match attributions with
             | [] => []
             | _ :: _ => [first_line packageName; ""]
             end) ++ ordered attributions ≫= block encodeVersions,
            index)
    | Throw e => Throw e
    end.
Proof.
  unfold render_loop, versions_index. rewrite render_steps_spec.
  by destruct attributions.
Qed.

Lemma render_spec attributions :
  render packageName encodeVersions attributions
  = match versions_index attributions with
    | Ok index =>
        Ok {| Rendered.licenses :=
                Js.join Js.LF
                  (Js.replace_crlf <$>
                     (match attributions with
                      | [] => []
                      | _ :: _ => [first_line packageName; ""]
                      end) ++ ordered attributions ≫= block encodeVersions);
              Rendered.versions := Js.JSON_stringify index |}
    | Throw e => Throw e
    end.
Proof.
  unfold render. rewrite render_loop_spec.
  by destruct (versions_index attributions).
Qed.

Lemma ordered_perm attributions : ordered attributions ≡ₚ attributions.
Proof. apply sort_perm. Qed.

Lemma ordered_sorted attributions :
  consistent localeCompare → StronglySorted fqn_le (ordered attributions).
Proof.
  intros [Htotal Htrans]. apply sort_sorted.
  - intros a1 a2. apply Htotal.
  - intros a1 a2 a3. apply Htrans.
Qed.

Lemma versions_index_plain attributions :
  plain_names attributions
  → ∃ index, versions_index attributions = Ok index.
Proof.
  intros Hplain. apply record_versions_plain.
  intros a Ha. apply Hplain. by rewrite <- (ordered_perm attributions).
Qed.

Lemma versions_index_Ok attributions index :
  versions_index attributions = Ok index → plain_names attributions.
Proof.
  intros [Hall _]%record_versions_Ok_plain; [|by intros k [? ?]].
  intros a Ha. apply Hall. by rewrite (ordered_perm attributions).
Qed.

Lemma versions_index_Throw attributions e :
  versions_index attributions = Throw e
  → e = TypeError "versionsInUse.push is not a function"
    ∧ ¬ plain_names attributions.
Proof.
  intros (-> & a & Ha & Hname)%record_versions_Throw. split; [done|].
  intros Hplain. apply (Hplain a); [|done].
  by rewrite <- (ordered_perm attributions).
Qed.

(** What [render] returns, when it returns. *)
Lemma render_Ok attributions rendered :
  render packageName encodeVersions attributions = Ok rendered
  → ∃ index,
      versions_index attributions = Ok index
      ∧ rendered
        = {| Rendered.licenses :=
               Js.join Js.LF
                 (Js.replace_crlf <$>
                    (match attributions with
                     | [] => []
                     | _ :: _ => [first_line packageName; ""]
                     end) ++ ordered attributions ≫= block encodeVersions);
             Rendered.versions := Js.JSON_stringify index |}.
Proof.
  rewrite render_spec.
  destruct (versions_index attributions) as [index|e]; [|done].
  intros [= <-]. by exists index.
Qed.

Lemma render_plain attributions :
  plain_names attributions
  → ∃ index,
      versions_index attributions = Ok index
      ∧ render packageName encodeVersions attributions
        = Ok {| Rendered.licenses :=
                  Js.join Js.LF
                    (Js.replace_crlf <$>
                       (match attributions with
                        | [] => []
                        | _ :: _ => [first_line packageName; ""]
                        end) ++ ordered attributions ≫= block encodeVersions);
                Rendered.versions := Js.JSON_stringify index |}.
Proof.
  intros [index Hindex]%versions_index_plain. exists index.
  split; [done|]. by rewrite render_spec, Hindex.
Qed.
End render_facts.

(** ** The concrete runtime is consistent *)

Lemma compare_not_gt_trans a b c :
  String.compare a b ≠ Gt → String.compare b c ≠ Gt → String.compare a c ≠ Gt.
Proof.
  intros Hab Hbc.
  destruct (String.compare a b) eqn:Eab; [| |done].
  { apply String.compare_eq_iff in Eab. by subst. }
  destruct (String.compare b c) eqn:Ebc; [| |done].
  { apply String.compare_eq_iff in Ebc. subst. by rewrite Eab. }
  apply OrderedTypeEx.String_as_OT.cmp_lt in Eab, Ebc.
  pose proof (OrderedTypeEx.String_as_OT.lt_trans _ _ _ Eab Ebc) as Hac.
  apply OrderedTypeEx.String_as_OT.cmp_lt in Hac.
  unfold OrderedTypeEx.String_as_OT.cmp in Hac. by rewrite Hac.
Qed.

Lemma caseless_compare_le a b :
  (caseless_compare a b <= 0)%Z
  ↔ String.compare (Js.toLowerCase a) (Js.toLowerCase b) ≠ Gt.
Proof.
  unfold caseless_compare.
  destruct (String.compare _ _); split; intros; (done || lia).
Qed.

Lemma caseless_compare_consistent : consistent caseless_compare.
Proof.
  split.
  - intros a b. rewrite !caseless_compare_le.
    rewrite (String.compare_antisym (Js.toLowerCase b)).
    destruct (String.compare (Js.toLowerCase a) (Js.toLowerCase b));
      simpl; auto.
  - intros a b c. rewrite !caseless_compare_le. apply compare_not_gt_trans.
Qed.

(** ** C1: the order of the blocks *)

(** C1, as amended. For every non-empty list of attributions in which no
    package has the name of a property of [Object.prototype], and every
    runtime whose [localeCompare] is a consistent comparison, [render]
    returns a document, and the document is the first line, an empty line
    and then the blocks of the attributions, each exactly once, in ascending
    order of [packageFqn] for [localeCompare] - the locale-sensitive
    comparison that [render] sorts with, not the order of the code points. *)
Theorem render_blocks_ascending_localeCompare `{Runtime}
    (packageName : string) (encodeVersions : bool)
    (attributions : list Attribution.t) :
  consistent localeCompare →
  attributions ≠ [] →
  plain_names attributions →
  ∃ (rendered : Rendered.t) (in_order : list Attribution.t),
    render packageName encodeVersions attributions = Ok rendered
    ∧ in_order ≡ₚ attributions
    ∧ StronglySorted fqn_le in_order
    ∧ Rendered.licenses rendered
      = Js.join Js.LF
          (Js.replace_crlf <$>
             [ "The " +:+ packageName
               +:+ " package includes the following third-party software/licensing:";
               "" ]
             ++ in_order ≫= block encodeVersions).
Proof.
  intros Hcmp Hne Hplain.
  destruct (render_plain packageName encodeVersions attributions Hplain)
    as (index & _ & Hrender).
  eexists _, (ordered attributions). split; [exact Hrender|].
  split; [apply ordered_perm|]. split; [by apply ordered_sorted|].
  by destruct attributions.
Qed.

Lemma render_blocks_ascending_localeCompare_witness :
  consistent caseless_compare
  ∧ [attribution_B; attribution_a] ≠ []
  ∧ plain_names [attribution_B; attribution_a]
  ∧ ∃ (rendered : Rendered.t) (in_order : list Attribution.t),
      render (H:=node) "consumer" true [attribution_B; attribution_a]
      = Ok rendered
      ∧ in_order ≡ₚ [attribution_B; attribution_a]
      ∧ StronglySorted (fqn_le (H:=node)) in_order
      ∧ Rendered.licenses rendered
        = Js.join Js.LF
            (Js.replace_crlf <$>
               [ "The " +:+ "consumer"
                 +:+ " package includes the following third-party software/licensing:";
                 "" ]
               ++ in_order ≫= block true).
Proof.
  assert (plain_names [attribution_B; attribution_a]) as Hplain.
  { apply plain_names_check. vm_compute; reflexivity. }
  split; [exact caseless_compare_consistent|].
  split; [discriminate|]. split; [exact Hplain|].
  apply (render_blocks_ascending_localeCompare (H:=node) "consumer" true
           [attribution_B; attribution_a]).
  - exact caseless_compare_consistent.
  - discriminate.
  - exact Hplain.
Defined.

(** C1 as stated fails: with the comparison of the concrete runtime, the
    block of a@1.0.0 is rendered before the block of B@1.0.0, although
    "B" comes before "a" in code-point order. *)
Lemma render_blocks_not_in_code_point_order :
  (∃ rendered,
     render (H:=node) "consumer" true [attribution_B; attribution_a]
     = Ok rendered
     ∧ Rendered.licenses rendered
       = Js.join Js.LF
           (Js.replace_crlf <$>
              [first_line "consumer"; ""]
              ++ block true attribution_a ++ block true attribution_B))
  ∧ ¬ code_point_le (Attribution.packageFqn attribution_a)
                    (Attribution.packageFqn attribution_B).
Proof.
  split; [eexists; split; vm_compute; reflexivity|].
  unfold code_point_le. by vm_compute.
Qed.

(** ** Running code that can throw *)

Lemma bind_Ok {A B} (m : M A) (k : A → M B) log log' b :
  bind m k log = (log', Ok b)
  ↔ ∃ a log1, m log = (log1, Ok a) ∧ k a log1 = (log', Ok b).
Proof.
  unfold bind. split.
  - destruct (m log) as [log1 [a|e]]; [eauto|discriminate].
  - intros (a & log1 & -> & Hk). done.
Qed.

Lemma ret_Ok {A} (a b : A) log log' :
  ret a log = (log', Ok b) ↔ log' = log ∧ b = a.
Proof. unfold ret. split; [by intros [= -> ->]|by intros [-> ->]]. Qed.

Lemma lift_Ok {A} (r : result A) (a : A) log log' :
  lift r log = (log', Ok a) ↔ log' = log ∧ r = Ok a.
Proof. unfold lift. split; [by intros [= -> ->]|by intros [-> ->]]. Qed.

Lemma for_each_app {A B} (f : A → M B) l1 l2 log :
  for_each f (l1 ++ l2) log
  = bind (for_each f l1)
         (λ ys1, bind (for_each f l2) (λ ys2, ret (ys1 ++ ys2))) log.
Proof.
  revert log. induction l1 as [|x l1 IH]; intros log; simpl.
  - unfold bind, ret. by destruct (for_each f l2 log) as [? [?|?]].
  - unfold bind, ret. destruct (f x log) as [log1 [y|e]]; [|done].
    rewrite IH. unfold bind, ret.
    destruct (for_each f l1 log1) as [log2 [ys1|e]]; [|done].
    by destruct (for_each f l2 log2) as [log3 [ys2|e]].
Qed.

(** The constructor's filter never touches the log and, when no pattern
    fails to compile, is the plain filter by [kept]. *)
Lemma filter_array_not_excluded_Ok `{Runtime} exclude l log log' l' :
  filter_array (not_excluded exclude) l log = (log', Ok l')
  → log' = log ∧ l' = List.filter (kept exclude) l.
Proof.
  revert log log' l'. induction l as [|d l IH]; intros log log' l'; simpl.
  - by intros [-> ->]%ret_Ok.
  - intros (keep & log1 & Hd & (rest & log2 & Hrest & [-> ->]%ret_Ok)%bind_Ok)%bind_Ok.
    apply IH in Hrest as [-> ->].
    unfold not_excluded, kept in *.
    destruct (when_truthy exclude) as [pattern|].
    + destruct (RegExp_test pattern (Package.name d)) as [[]|];
        [..|discriminate]; apply ret_Ok in Hd as [-> ->]; simpl;
        try case_bool_decide; done.
    + apply ret_Ok in Hd as [-> ->]. done.
Qed.

(** ** The loop of [attribute] *)

Lemma read_if_set_Ok w file log log' v :
  read_if_set w file log = (log', Ok v)
  → log' = log
    ∧ v = (f ← when_truthy file; files w !! f)
    ∧ (∀ f, when_truthy file = Some f → is_Some (files w !! f)).
Proof.
  unfold read_if_set, readFileSync.
  destruct (when_truthy file) as [f|]; simpl.
  - destruct (files w !! f) as [text|] eqn:Hf.
    + intros (text' & log1 & [-> ->]%ret_Ok & [-> ->]%ret_Ok)%bind_Ok.
      split_and!; [done..|]. by intros ? [= <-].
    + intros (text' & log1 & Hthrow & _)%bind_Ok. discriminate.
  - intros [-> ->]%ret_Ok. naive_solver.
Qed.

Lemma license_file_alt info :
  when_truthy
    match ModuleInfo.licenseFile info with
    | Some f => if Js.endsWith (Js.toLowerCase f) ".md" then None else Some f
    | None => None
    end
  = license_file info.
Proof.
  unfold license_file, when_truthy, Js.truthy.
  destruct (ModuleInfo.licenseFile info) as [[|c s]|]; simpl; [done| |done].
  by destruct (Js.endsWith _ _).
Qed.

Lemma locate_Ok w infos dep log log' info :
  match infos !! pkg dep with
  | Some info => ret (Some info)
  | None =>
      let* own := fetchInfos w (Package.path dep) [pkg dep] in
      ret (own !! pkg dep)
  end log = (log', Ok info)
  → info = located_info w infos dep ∧ log' = log ++ fallback_calls infos dep.
Proof.
  unfold located_info, fallback_calls, fetchInfos.
  destruct (infos !! pkg dep) as [i|].
  - intros [-> ->]%ret_Ok. by rewrite (right_id_L [] (++)).
  - intros (own & log1 & Hown & [-> ->]%ret_Ok)%bind_Ok.
    destruct (probe w (Package.path dep) [pkg dep]); by simplify_eq.
Qed.

Lemma attribute_dependency_Ok w encodeVersions infos dep log log' a :
  attribute_dependency w encodeVersions infos dep log = (log', Ok a)
  → attributed w encodeVersions infos dep a
    ∧ log' = log ++ fallback_calls infos dep.
Proof.
  unfold attribute_dependency.
  intros (info & log1 & [-> ->]%locate_Ok & Hrest)%bind_Ok.
  destruct (located_info w infos dep) as [info|] eqn:Hinfo; [|discriminate].
  apply bind_Ok in Hrest as (noticeText & log2 & (-> & -> & Hn)%read_if_set_Ok & Hrest).
  apply bind_Ok in Hrest as (licenseText & log3 & (-> & -> & Hl)%read_if_set_Ok & Hrest).
  apply ret_Ok in Hrest as [-> ->]. split; [|done].
  exists info. rewrite license_file_alt in *. split_and!; [done|by split|].
  unfold attribution_of, package_url, declared_licenses, license_text, notice_text.
  f_equal. by destruct (ModuleInfo.licenses info) as [[[|c s]|all]|].
Qed.

Lemma for_each_attribute_Ok w encodeVersions infos deps log log' attributions :
  for_each (attribute_dependency w encodeVersions infos) deps log
  = (log', Ok attributions)
  → Forall2 (attributed w encodeVersions infos) deps attributions
    ∧ log' = log ++ deps ≫= fallback_calls infos.
Proof.
  revert log log' attributions.
  induction deps as [|d deps IH]; intros log log' attributions; simpl.
  - intros [-> ->]%ret_Ok. by rewrite (right_id_L [] (++)).
  - intros (a & log1 & [Ha ->]%attribute_dependency_Ok & Hrest)%bind_Ok.
    apply bind_Ok in Hrest as (rest & log2 & [Hrest ->]%IH & [-> ->]%ret_Ok).
    split; [by constructor|]. by rewrite (assoc_L (++)).
Qed.

(** A dependency that neither probe run knows stops the loop. *)
Lemma attribute_dependency_unlocated w encodeVersions infos dep log own :
  infos !! pkg dep = None
  → probe w (Package.path dep) [pkg dep] = Some own
  → own !! pkg dep = None
  → attribute_dependency w encodeVersions infos dep log
    = (log ++ [(Package.path dep, [pkg dep])], Throw (unable_to_locate dep)).
Proof.
  intros Hglobal Hprobe Hown.
  unfold attribute_dependency, bind, fetchInfos, ret.
  by rewrite Hglobal, Hprobe, Hown.
Qed.

Lemma attribute_Ok w encodeVersions dependenciesRoot deps log log' attributions :
  attribute w encodeVersions dependenciesRoot deps log = (log', Ok attributions)
  → (deps = [] ∧ attributions = [] ∧ log' = log)
    ∨ (deps ≠ []
       ∧ ∃ infos,
           probe w dependenciesRoot (pkg <$> deps) = Some infos
           ∧ Forall2 (attributed w encodeVersions infos) deps attributions
           ∧ log' = log ++ (dependenciesRoot, pkg <$> deps)
                             :: deps ≫= fallback_calls infos).
Proof.
  unfold attribute. destruct deps as [|d deps].
  - intros [-> ->]%ret_Ok. by left.
  - intros (infos & log1 & Hprobe & Hloop)%bind_Ok. right. split; [done|].
    unfold fetchInfos in Hprobe.
    destruct (probe w dependenciesRoot (pkg <$> d :: deps)) as [infos'|] eqn:Hp;
      [|discriminate].
    simplify_eq. exists infos.
    apply for_each_attribute_Ok in Hloop as [Hall ->].
    split_and!; [done..|]. by rewrite <- (assoc_L (++)).
Qed.

(** ** The constructors *)

Lemma EncodeVersions_new_Ok `{Runtime} w props log log' self :
  EncodeVersions.new w props log = (log', Ok self)
  → let deps := List.filter (kept (EncodeVersions.AttributionsProps.exclude props))
                            (EncodeVersions.AttributionsProps.dependencies props) in
    let flag := default false (EncodeVersions.AttributionsProps.encodeVersions props) in
    ∃ attributions,
      attribute w flag (EncodeVersions.AttributionsProps.dependenciesRoot props)
                deps log = (log', Ok attributions)
      ∧ EncodeVersions.dependencies self = deps
      ∧ EncodeVersions.allowedLicenses self
        = Js.toLowerCase <$> EncodeVersions.AttributionsProps.allowedLicenses props
      ∧ EncodeVersions.encodeVersions self = flag
      ∧ EncodeVersions.packageName self
        = EncodeVersions.AttributionsProps.packageName props
      ∧ EncodeVersions.attributions self = attributions
      ∧ render (EncodeVersions.packageName self) flag attributions
        = Ok {| Rendered.licenses := EncodeVersions.content self;
                Rendered.versions := EncodeVersions.versions self |}.
Proof.
  unfold EncodeVersions.new.
  intros (deps & log1 & [-> ->]%filter_array_not_excluded_Ok & Hrest)%bind_Ok.
  apply bind_Ok in Hrest as (attributions & log2 & Hattr & Hrest).
  apply bind_Ok in Hrest
    as ([licenses versions] & log3 & [-> Hrender]%lift_Ok & [-> ->]%ret_Ok).
  exists attributions. by split_and!.
Qed.

Lemma VersionsPath_new_Ok `{Runtime} w props log log' self :
  VersionsPath.new w props log = (log', Ok self)
  → let deps := List.filter (kept (VersionsPath.AttributionsProps.exclude props))
                            (VersionsPath.AttributionsProps.dependencies props) in
    let flag := negb (Js.truthy (VersionsPath.versionsPath self)) in
    ∃ attributions,
      attribute w flag (VersionsPath.AttributionsProps.dependenciesRoot props)
                deps log = (log', Ok attributions)
      ∧ VersionsPath.dependencies self = deps
      ∧ VersionsPath.allowedLicenses self
        = Js.toLowerCase <$> VersionsPath.AttributionsProps.allowedLicenses props
      ∧ VersionsPath.packageName self
        = VersionsPath.AttributionsProps.packageName props
      ∧ VersionsPath.attributions self = attributions
      ∧ render (VersionsPath.packageName self) flag attributions
        = Ok {| Rendered.licenses := VersionsPath.licenses self;
                Rendered.versions := VersionsPath.versions self |}.
Proof.
  unfold VersionsPath.new.
  intros (deps & log1 & [-> ->]%filter_array_not_excluded_Ok & Hrest)%bind_Ok.
  apply bind_Ok in Hrest as (attributions & log2 & Hattr & Hrest).
  apply bind_Ok in Hrest
    as ([licenses versions] & log3 & [-> Hrender]%lift_Ok & [-> ->]%ret_Ok).
  exists attributions. by split_and!.
Qed.

(** ** C3: the license checks of [validate] *)

Lemma includes_lowercase allowedLicenses license :
  bool_decide (Js.toLowerCase license ∈ Js.toLowerCase <$> allowedLicenses)
  = allowed_ignoring_case allowedLicenses license.
Proof.
  induction allowedLicenses as [|l allowed IH]; simpl.
  - done.
  - rewrite <- IH.
    destruct (String.eqb_spec (Js.toLowerCase l) (Js.toLowerCase license))
      as [Heq|Hne]; simpl.
    + apply bool_decide_eq_true. rewrite Heq. left.
    + apply bool_decide_ext. rewrite elem_of_cons.
      split; [|auto]. by intros [Heq|Hin]; [symmetry in Heq|].
Qed.

Lemma license_checks_perm allowedLicenses attributions :
  invalidLicense (Js.toLowerCase <$> allowedLicenses) attributions
  ++ noLicense attributions ++ multiLicense attributions
  ≡ₚ omap (license_violation_of allowedLicenses) attributions.
Proof.
  unfold invalidLicense, noLicense, multiLicense.
  induction attributions as [|a attributions IH]; [done|].
  cbn [List.filter omap list_omap]. unfold license_violation_of at 1.
  destruct (Attribution.licenses a) as [|first [|second more]] eqn:Hlic; simpl.
  - rewrite <- IH. by rewrite <- Permutation_middle.
  - rewrite includes_lowercase.
    destruct (allowed_ignoring_case allowedLicenses first); simpl; [done|].
    rewrite Hlic. simpl. by rewrite IH.
  - rewrite <- IH. rewrite (assoc_L (++)), <- Permutation_middle.
    rewrite Hlic. simpl. by rewrite <- (assoc_L (++)).
Qed.

Lemma license_checks_types allowedLicenses attributions :
  Forall (λ v, is_license_violation v = true)
         (invalidLicense allowedLicenses attributions
          ++ noLicense attributions ++ multiLicense attributions).
Proof.
  unfold invalidLicense, noLicense, multiLicense.
  rewrite !Forall_app, !Forall_fmap. split_and!; by apply Forall_true.
Qed.

Lemma filter_all {A} (p : A → bool) l :
  Forall (λ x, p x = true) l → List.filter p l = l.
Proof. induction 1 as [|x l Hx _ IH]; simpl; [done|]. by rewrite Hx, IH. Qed.

(** C3. For an object built by the constructor from [props], the license
    violations that [validate] reports are, up to their order in the report,
    the violations of the single attributions: an attribution with no
    license gives one no-license violation, one with a single license that
    is not in the allow-list (both lower-cased) gives one invalid-license
    violation and none when it is in the list, and one with two or more
    licenses gives one multiple-license violation whose message ends in the
    comma-joined list. *)
Theorem validate_license_violations `{Runtime} (w : World)
    (props : EncodeVersions.AttributionsProps.t) (log log' : ProbeLog)
    (self : EncodeVersions.t) (fs : gmap string string) :
  EncodeVersions.new w props log = (log', Ok self) →
  List.filter is_license_violation
              (ViolationsReport.violations (EncodeVersions.validate self fs))
  ≡ₚ omap (license_violation_of (EncodeVersions.AttributionsProps.allowedLicenses props))
          (EncodeVersions.attributions self).
Proof.
  intros (attributions & _ & _ & Hallowed & _)%EncodeVersions_new_Ok.
  rewrite <- license_checks_perm, <- Hallowed.
  unfold EncodeVersions.validate. cbn [ViolationsReport.violations].
  rewrite <- !(assoc_L (++)), List.filter_app.
  rewrite (filter_all _ _ (license_checks_types _ _)).
  match goal with
  | |- List.filter _ ?pre ++ _ ≡ₚ _ =>
      assert (List.filter is_license_violation pre = []) as ->
  end; [|done].
  destruct (negb (existsSync fs (EncodeVersions.filePath self)));
    by destruct (fs !! EncodeVersions.filePath self) as [text|];
      try destruct (negb (text =? EncodeVersions.content self)%string).
Qed.

Lemma validate_license_violations_witness :
  ∃ log' self,
    EncodeVersions.new (H:=node) (consumer_world (Some (ModuleInfo.One "mit")))
                       (consumer_props_v1 ["MIT"] None None) []
    = (log', Ok self)
    ∧ List.filter is_license_violation
        (ViolationsReport.violations
           (EncodeVersions.validate (H:=node) self consumer_files))
      ≡ₚ omap (license_violation_of ["MIT"]) (EncodeVersions.attributions self).
Proof.
  eexists _, _. split; [vm_compute; reflexivity|].
  eapply (validate_license_violations (H:=node)
            (consumer_world (Some (ModuleInfo.One "mit")))
            (consumer_props_v1 ["MIT"] None None) []).
  vm_compute; reflexivity.
Defined.

(** With the allow-list ["MIT"], a dependency that declares "mit" is
    accepted, and one that declares "Apache-2.0" is not. *)
Example allow_list_ignores_case :
  ∃ log' self,
    EncodeVersions.new (H:=node) (consumer_world (Some (ModuleInfo.One "mit")))
                       (consumer_props_v1 ["MIT"] None None) []
    = (log', Ok self)
    ∧ Attribution.licenses <$> EncodeVersions.attributions self
      = [["mit"]; ["Apache-2.0"]]
    ∧ (λ v, (Violation.type v, Violation.message v))
      <$> ViolationsReport.violations
            (EncodeVersions.validate (H:=node) self
               (<["/consumer/THIRD_PARTY_LICENSES" := EncodeVersions.content self]>
                  consumer_files))
      = [(INVALID_LICENSE,
          "Dependency dep2@0.0.0 has an invalid license: Apache-2.0")].
Proof. eexists _, _. split; [vm_compute; reflexivity|]. by vm_compute. Qed.

(** ** C2: missing and outdated files *)

Section validate_files.
Context `{Runtime}.
Variables (self : VersionsPath.t) (fs : gmap string string).

(** The report of [validate], one group of violations after the other. *)
Lemma VersionsPath_validate_spec :
  ViolationsReport.violations (VersionsPath.validate self fs)
  = match fs !! VersionsPath.licensesPath self with
    | None => [fixable self MISSING_LICENSES (VersionsPath.licensesPath self) " is missing"]
    | Some text =>
        if String.eqb text (VersionsPath.licenses self) then []
        else [fixable self OUTDATED_LICENSES (VersionsPath.licensesPath self) " is outdated"]
    end
    ++ match when_truthy (VersionsPath.versionsPath self) with
       | None => []
       | Some p =>
           match fs !! p with
           | None => [fixable self MISSING_VERSIONS p " is missing"]
           | Some text =>
               if String.eqb text (VersionsPath.versions self) then []
               else [fixable self OUTDATED_VERSIONS p " is outdated"]
           end
       end
    ++ invalidLicense (VersionsPath.allowedLicenses self) (VersionsPath.attributions self)
    ++ noLicense (VersionsPath.attributions self)
    ++ multiLicense (VersionsPath.attributions self).
Proof.
  unfold VersionsPath.validate, existsSync. cbn [ViolationsReport.violations].
  rewrite <- !(assoc_L (++)). unfold fixable.
  destruct (fs !! VersionsPath.licensesPath self) as [text|] eqn:Hl.
  all: rewrite ?bool_decide_eq_true_2 by eauto.
  all: rewrite ?bool_decide_eq_false_2 by (by intros [? ?]).
  all: cbn [negb].
  all: try destruct (String.eqb text (VersionsPath.licenses self)); cbn [negb].
  all: unfold when_truthy; destruct (VersionsPath.versionsPath self) as [[|c p]|];
    cbn [Js.truthy negb orb mbind option_bind]; try done.
  all: destruct (fs !! String c p) as [text'|] eqn:Hv.
  all: rewrite ?bool_decide_eq_true_2 by eauto.
  all: rewrite ?bool_decide_eq_false_2 by (by intros [? ?]).
  all: cbn [negb orb]; rewrite ?Hv.
  all: try destruct (String.eqb text' (VersionsPath.versions self)); by cbn [negb].
Qed.
End validate_files.

Lemma license_checks_elem allowedLicenses attributions v :
  v ∈ invalidLicense allowedLicenses attributions
      ++ noLicense attributions ++ multiLicense attributions
  → Violation.type v ∈ [INVALID_LICENSE; NO_LICENSE; MULTIPLE_LICENSE]
    ∧ Violation.fix_ v = None.
Proof.
  unfold invalidLicense, noLicense, multiLicense.
  rewrite !elem_of_app, !list_elem_of_fmap.
  intros [(a & -> & _)|[(a & -> & _)|(a & -> & _)]]; simpl;
    (split; [|done]); set_solver.
Qed.

(** C2. [validate] reports missing-licenses exactly when there is no file
    at [licensesPath]; outdated-licenses exactly when there is one and its
    content is not the canonical document; missing-versions exactly when
    [versionsPath] is set and there is no file there; outdated-versions
    exactly when [versionsPath] is set, the file is there and its content
    is not the canonical versions JSON. Each of these violations carries
    [flush] as its fix, and [flush] writes the canonical document to
    [licensesPath] and, when [versionsPath] is set, the canonical versions
    to it. *)
Theorem validate_reports_missing_and_outdated `{Runtime}
    (self : VersionsPath.t) (fs : gmap string string) :
  let report := VersionsPath.validate self fs in
  (reported MISSING_LICENSES report
   ↔ fs !! VersionsPath.licensesPath self = None)
  ∧ (reported OUTDATED_LICENSES report
     ↔ ∃ text, fs !! VersionsPath.licensesPath self = Some text
               ∧ text ≠ VersionsPath.licenses self)
  ∧ (reported MISSING_VERSIONS report
     ↔ ∃ p, when_truthy (VersionsPath.versionsPath self) = Some p
            ∧ fs !! p = None)
  ∧ (reported OUTDATED_VERSIONS report
     ↔ ∃ p text, when_truthy (VersionsPath.versionsPath self) = Some p
                 ∧ fs !! p = Some text
                 ∧ text ≠ VersionsPath.versions self)
  ∧ (∀ v, v ∈ ViolationsReport.violations report → about_files v
          → Violation.fix_ v = Some (VersionsPath.flush self))
  ∧ (∀ disk,
       VersionsPath.flush self disk
       = match when_truthy (VersionsPath.versionsPath self) with
         | Some p =>
             <[p := VersionsPath.versions self]>
               (<[VersionsPath.licensesPath self := VersionsPath.licenses self]> disk)
         | None =>
             <[VersionsPath.licensesPath self := VersionsPath.licenses self]> disk
         end).
Proof.
  intros report. unfold reported, about_files. subst report.
  rewrite VersionsPath_validate_spec.
  pose proof (license_checks_elem (VersionsPath.allowedLicenses self)
                (VersionsPath.attributions self)) as Hlic.
  set (checks := invalidLicense _ _ ++ noLicense _ ++ multiLicense _) in *.
  assert (∀ type, type ∈ Violation.type <$> checks
                  → type ∈ [INVALID_LICENSE; NO_LICENSE; MULTIPLE_LICENSE])
    as Hchecks.
  { intros type (v & -> & [Hv _]%Hlic)%list_elem_of_fmap. done. }
  rewrite !fmap_app.
  split_and!.
  - rewrite !elem_of_app. split.
    + intros [Hv|[Hv|Hv%Hchecks]]; [| |elems Hv].
      * destruct (fs !! VersionsPath.licensesPath self) as [text|]; [|done].
        destruct (String.eqb text _); elems Hv.
      * destruct (when_truthy _) as [p|]; [|elems Hv].
        destruct (fs !! p) as [text|]; [|elems Hv].
        destruct (String.eqb text _); elems Hv.
    + intros ->. left. simpl. apply list_elem_of_singleton. done.
  - rewrite !elem_of_app. split.
    + intros [Hv|[Hv|Hv%Hchecks]]; [| |elems Hv].
      * destruct (fs !! VersionsPath.licensesPath self) as [text|]; [|elems Hv].
        destruct (String.eqb_spec text (VersionsPath.licenses self));
          [elems Hv|eauto].
      * destruct (when_truthy _) as [p|]; [|elems Hv].
        destruct (fs !! p) as [text|]; [|elems Hv].
        destruct (String.eqb text _); elems Hv.
    + intros (text & -> & Hne). left.
      destruct (String.eqb_spec text (VersionsPath.licenses self)); [done|].
      simpl. apply list_elem_of_singleton. done.
  - rewrite !elem_of_app. split.
    + intros [Hv|[Hv|Hv%Hchecks]]; [| |elems Hv].
      * destruct (fs !! VersionsPath.licensesPath self) as [text|]; [|elems Hv].
        destruct (String.eqb text _); elems Hv.
      * destruct (when_truthy _) as [p|]; [|elems Hv].
        destruct (fs !! p) as [text|] eqn:Hp; [|eauto].
        destruct (String.eqb text _); elems Hv.
    + intros (p & -> & ->). right; left. simpl.
      apply list_elem_of_singleton. done.
  - rewrite !elem_of_app. split.
    + intros [Hv|[Hv|Hv%Hchecks]]; [| |elems Hv].
      * destruct (fs !! VersionsPath.licensesPath self) as [text|]; [|elems Hv].
        destruct (String.eqb text _); elems Hv.
      * destruct (when_truthy _) as [p|]; [|elems Hv].
        destruct (fs !! p) as [text|] eqn:Hp; [|elems Hv].
        destruct (String.eqb_spec text (VersionsPath.versions self));
          [elems Hv|eauto].
    + intros (p & text & -> & -> & Hne). right; left.
      destruct (String.eqb_spec text (VersionsPath.versions self)); [done|].
      simpl. apply list_elem_of_singleton. done.
  - intros v [Hv|[Hv|Hv]%elem_of_app]%elem_of_app Htype.
    + destruct (fs !! VersionsPath.licensesPath self) as [text|];
        [destruct (String.eqb text (VersionsPath.licenses self))|];
        elems Hv; by subst v.
    + destruct (when_truthy (VersionsPath.versionsPath self)) as [p|];
        [destruct (fs !! p) as [text|];
         [destruct (String.eqb text (VersionsPath.versions self))|]|];
        elems Hv; by subst v.
    + apply Hlic in Hv as [Hv _]. elems Htype; rewrite Htype in Hv; elems Hv.
  - intros disk. unfold VersionsPath.flush.
    by destruct (when_truthy (VersionsPath.versionsPath self)).
Qed.

(** ** C5: validating again after a fix *)

Section fixes.
Context `{Runtime}.
Variable self : VersionsPath.t.
Hypothesis distinct_files :
  when_truthy (VersionsPath.versionsPath self) ≠ Some (VersionsPath.licensesPath self).

Lemma flush_up_to_date disk : up_to_date self (VersionsPath.flush self disk).
Proof.
  unfold up_to_date, VersionsPath.flush.
  destruct (when_truthy (VersionsPath.versionsPath self)) as [p|] eqn:Hp.
  - split.
    + rewrite lookup_insert_ne by congruence. apply lookup_insert_eq.
    + intros ? [= <-]. apply lookup_insert_eq.
  - split; [apply lookup_insert_eq|done].
Qed.

Lemma validate_up_to_date disk :
  up_to_date self disk
  → ViolationsReport.violations (VersionsPath.validate self disk)
    = license_checks self.
Proof.
  intros [Hl Hv]. rewrite VersionsPath_validate_spec, Hl, String.eqb_refl.
  destruct (when_truthy (VersionsPath.versionsPath self)) as [p|]; [|done].
  by rewrite (Hv p eq_refl), String.eqb_refl.
Qed.

Lemma fixes_keep_up_to_date (violations : list Violation.t) disk :
  Forall (λ v, Violation.fix_ v = Some (VersionsPath.flush self)
               ∨ Violation.fix_ v = None) violations
  → up_to_date self disk
  → up_to_date self
      (foldl (λ fs v, match Violation.fix_ v with
                      | Some fixer => fixer fs
                      | None => fs
                      end) disk violations).
Proof.
  intros Hall. revert disk.
  induction Hall as [|v violations [Hv|Hv] _ IH]; intros disk Hdisk; simpl;
    [done|..]; rewrite Hv; apply IH; [apply flush_up_to_date|done].
Qed.

Lemma apply_fixes_up_to_date disk :
  up_to_date self (apply_fixes (VersionsPath.validate self disk) disk).
Proof.
  unfold apply_fixes. rewrite VersionsPath_validate_spec.
  pose proof fixes_keep_up_to_date as Hkeep.
  pose proof flush_up_to_date as Hflush.
  assert (Forall (λ v, Violation.fix_ v = Some (VersionsPath.flush self)
                       ∨ Violation.fix_ v = None)
                 (invalidLicense (VersionsPath.allowedLicenses self)
                                 (VersionsPath.attributions self)
                  ++ noLicense (VersionsPath.attributions self)
                  ++ multiLicense (VersionsPath.attributions self))) as Hchecks.
  { apply Forall_forall. intros v [_ Hv]%license_checks_elem. by right. }
  clear distinct_files.
  destruct (disk !! VersionsPath.licensesPath self) as [text|] eqn:Hl;
    [destruct (String.eqb_spec text (VersionsPath.licenses self)) as [->|Hne]|].
  2,3: cbn [app foldl Violation.fix_ fixable];
       apply Hkeep; [|apply Hflush];
       apply Forall_app; split; [|done];
       destruct (when_truthy (VersionsPath.versionsPath self)) as [p|];
         [destruct (disk !! p) as [text'|];
          [destruct (String.eqb text' (VersionsPath.versions self))|]|];
         repeat constructor; by left.
  cbn [app].
  destruct (when_truthy (VersionsPath.versionsPath self)) as [p|] eqn:Hp;
    [destruct (disk !! p) as [text'|] eqn:Hv;
     [destruct (String.eqb_spec text' (VersionsPath.versions self)) as [->|Hne]|]|].
  2,3: cbn [app foldl Violation.fix_ fixable];
       apply Hkeep; [done|apply Hflush].
  all: cbn [app]; apply Hkeep; [done|].
  all: split; [done|]; rewrite Hp; intros ? [=]; by subst.
Qed.
End fixes.

(** C5, as amended. When [validate] has been run with [fix] and the
    inputs have not changed (the object has the same canonical content), a
    second [validate] reports no violation about the licenses file or the
    versions file: its report is exactly the license checks, which no fix
    touches. It is therefore empty when every attribution has exactly one
    license and that license is in the allow-list. This needs the versions
    file and the licenses file to be different files. *)
Theorem second_validate_reports_license_checks_only `{Runtime}
    (self : VersionsPath.t) (fs : gmap string string) :
  when_truthy (VersionsPath.versionsPath self)
  ≠ Some (VersionsPath.licensesPath self) →
  let fixed := apply_fixes (VersionsPath.validate self fs) fs in
  ViolationsReport.violations (VersionsPath.validate self fixed)
  = license_checks self
  ∧ ((∀ a, a ∈ VersionsPath.attributions self
           → ∃ license, Attribution.licenses a = [license]
                        ∧ Js.toLowerCase license ∈ VersionsPath.allowedLicenses self)
     → ViolationsReport.violations (VersionsPath.validate self fixed) = []).
Proof.
  intros Hdistinct fixed.
  assert (ViolationsReport.violations (VersionsPath.validate self fixed)
          = license_checks self) as Hsecond.
  { apply validate_up_to_date;
      [exact Hdistinct|exact (apply_fixes_up_to_date self Hdistinct fs)]. }
  split; [done|]. rewrite Hsecond. intros Hall.
  unfold license_checks, invalidLicense, noLicense, multiLicense.
  induction (VersionsPath.attributions self) as [|a attributions IH]; [done|].
  destruct (Hall a) as (license & Hlicense & Hallowed); [left|].
  cbn [List.filter]. rewrite Hlicense. cbn [length].
  rewrite bool_decide_eq_true_2 by done. cbn [negb].
  rewrite !bool_decide_eq_false_2 by (simpl; lia).
  apply IH. intros a' Ha'. apply Hall. by right.
Qed.

Lemma second_validate_reports_license_checks_only_witness :
  ∃ log' self,
    VersionsPath.new (H:=node) (consumer_world (Some (ModuleInfo.One "mit")))
      (consumer_props ["MIT"; "Apache-2.0"] None (Some "THIRD_PARTY_VERSIONS")) []
    = (log', Ok self)
    ∧ when_truthy (VersionsPath.versionsPath self)
      ≠ Some (VersionsPath.licensesPath self)
    ∧ let fixed :=
        apply_fixes (VersionsPath.validate (H:=node) self consumer_files)
                    consumer_files in
      ViolationsReport.violations (VersionsPath.validate (H:=node) self fixed)
      = license_checks self
      ∧ ((∀ a, a ∈ VersionsPath.attributions self
               → ∃ license, Attribution.licenses a = [license]
                            ∧ Js.toLowerCase license
                              ∈ VersionsPath.allowedLicenses self)
         → ViolationsReport.violations
             (VersionsPath.validate (H:=node) self fixed) = []).
Proof.
  eexists _, _. split; [vm_compute; reflexivity|].
  split; [by vm_compute|].
  apply (second_validate_reports_license_checks_only (H:=node)).
  by vm_compute.
Defined.

(** C5 as stated fails. In the tree of the tests with a [dep1] that
    declares no license, [validate] reports the two missing files and the
    missing license; the fix writes both files; the constructor run on the
    fixed disk builds the same object; and the second [validate] still
    reports the missing license. *)
Lemma second_validate_not_empty :
  ∃ log' self,
    VersionsPath.new (H:=node) (consumer_world None) separate_versions_props []
    = (log', Ok self)
    ∧ Violation.type
      <$> ViolationsReport.violations
            (VersionsPath.validate (H:=node) self consumer_files)
      = [MISSING_LICENSES; MISSING_VERSIONS; NO_LICENSE]
    ∧ VersionsPath.new (H:=node)
        {| probe := consumer_probe None;
           files := apply_fixes
                      (VersionsPath.validate (H:=node) self consumer_files)
                      consumer_files |}
        separate_versions_props []
      = (log', Ok self)
    ∧ (λ v, (Violation.type v, Violation.message v))
      <$> ViolationsReport.violations
            (VersionsPath.validate (H:=node) self
               (apply_fixes
                  (VersionsPath.validate (H:=node) self consumer_files)
                  consumer_files))
      = [(NO_LICENSE, "Dependency dep1@0.0.0 has no license")].
Proof.
  eexists _, _. split; [vm_compute; reflexivity|].
  split; [by vm_compute|]. split; by vm_compute.
Qed.

(** The two files have to be different: when the versions are written to
    the path of the licenses file, [flush] leaves the versions JSON there,
    and the second [validate] finds the licenses outdated. *)
Example second_validate_with_one_file_for_both :
  ∃ log' self,
    VersionsPath.new (H:=node) (consumer_world (Some (ModuleInfo.One "MIT")))
      (consumer_props ["MIT"; "Apache-2.0"] None (Some "THIRD_PARTY_LICENSES")) []
    = (log', Ok self)
    ∧ (λ v, (Violation.type v, Violation.message v))
      <$> ViolationsReport.violations
            (VersionsPath.validate (H:=node) self
               (apply_fixes
                  (VersionsPath.validate (H:=node) self consumer_files)
                  consumer_files))
      = [(OUTDATED_LICENSES, "THIRD_PARTY_LICENSES is outdated")].
Proof.
  eexists _, _. split; [vm_compute; reflexivity|]. vm_compute; reflexivity.
Qed.

(** ** Strings: [replace] and [join] *)

Lemma append_cons c (s t : string) : String c s +:+ t = String c (s +:+ t).
Proof. done. Qed.

Lemma append_assoc (s1 s2 s3 : string) : (s1 +:+ s2) +:+ s3 = s1 +:+ s2 +:+ s3.
Proof. induction s1 as [|c s1 IH]; [done|]. rewrite !append_cons. by f_equal. Qed.

Lemma append_empty_r (s : string) : s +:+ "" = s.
Proof. induction s as [|c s IH]; [done|]. rewrite append_cons. by f_equal. Qed.

Lemma replace_crlf_pair rest :
  Js.replace_crlf (String "013"%char (String "010"%char rest))
  = String "010"%char (Js.replace_crlf rest).
Proof. done. Qed.

Lemma replace_crlf_other c s :
  c ≠ "013"%char ∨ starts_with_LF s = false
  → Js.replace_crlf (String c s) = String c (Js.replace_crlf s).
Proof.
  intros Hc. destruct s as [|d rest]; [done|]. cbn [Js.replace_crlf].
  destruct (Ascii.eqb_spec c "013"%char) as [->|Hne]; [|done].
  destruct Hc as [Hc|Hc]; [done|]. simpl in Hc. by rewrite Hc.
Qed.

Lemma replace_crlf_app s t :
  starts_with_LF t = false
  → Js.replace_crlf (s +:+ t) = Js.replace_crlf s +:+ Js.replace_crlf t.
Proof.
  intros Ht. remember (String.length s) as n eqn:Hn.
  revert s Hn. induction (lt_wf n) as [n _ IH]. intros s ->.
  destruct s as [|c [|d rest]].
  - done.
  - rewrite append_cons. change ("" +:+ t) with t.
    rewrite replace_crlf_other by (by right). done.
  - destruct (Ascii.eqb_spec c "013"%char) as [->|Hc].
    + destruct (Ascii.eqb_spec d "010"%char) as [->|Hd].
      * rewrite !append_cons, !replace_crlf_pair, append_cons.
        f_equal. eapply IH; [|done]. simpl. lia.
      * rewrite (append_cons "013"%char (String d rest) t).
        rewrite (replace_crlf_other "013"%char (String d rest +:+ t))
          by (right; simpl; by apply Ascii.eqb_neq).
        rewrite (replace_crlf_other "013"%char (String d rest))
          by (right; simpl; by apply Ascii.eqb_neq).
        rewrite (append_cons "013"%char). f_equal. eapply IH; [|done]. simpl. lia.
    + rewrite (append_cons c (String d rest) t).
      rewrite (replace_crlf_other c (String d rest +:+ t)) by (by left).
      rewrite (replace_crlf_other c (String d rest)) by (by left).
      rewrite (append_cons c). f_equal. eapply IH; [|done]. simpl. lia.
Qed.

(** Every carriage return and line feed pair of the text is one line
    feed of the result. *)
Lemma replace_crlf_occurrence u v :
  Js.replace_crlf (u +:+ Js.CRLF +:+ v)
  = Js.replace_crlf u +:+ Js.LF +:+ Js.replace_crlf v.
Proof. by rewrite replace_crlf_app. Qed.

Lemma join_cons sep x y l :
  Js.join sep (x :: y :: l) = x +:+ sep +:+ Js.join sep (y :: l).
Proof. done. Qed.

Lemma join_middle sep before x after :
  ∃ left right,
    Js.join sep (before ++ x :: after) = left +:+ x +:+ right
    ∧ (before = [] → left = "")
    ∧ (after = [] → right = "").
Proof.
  induction before as [|y before (left & right & IH & _ & Hright)].
  - destruct after as [|z after].
    + exists "", "". by rewrite append_empty_r.
    + exists "", (sep +:+ Js.join sep (z :: after)). done.
  - exists (y +:+ sep +:+ left), right.
    split_and!; [|done..].
    destruct before; cbn [app] in IH |- *; rewrite join_cons, IH;
      by rewrite !append_assoc.
Qed.

Lemma replace_crlf_without_CR s :
  "013"%char ∉ list_ascii_of_string s → Js.replace_crlf s = s.
Proof.
  induction s as [|c s IH]; [done|]. cbn [list_ascii_of_string].
  intros [Hc Hs]%not_elem_of_cons.
  rewrite replace_crlf_other by (left; congruence). by rewrite IH.
Qed.

Lemma replace_crlf_first_line packageName :
  Js.replace_crlf (first_line packageName)
  = first_line (Js.replace_crlf packageName).
Proof.
  unfold first_line.
  change ("The " +:+ ?rest)
    with (String "T" (String "h" (String "e" (String " " rest)))).
  rewrite !replace_crlf_other by (by left).
  by rewrite replace_crlf_app.
Qed.

Lemma replace_crlf_header encodeVersions attr :
  Attribution.licenses attr = []
  → Js.replace_crlf (block_header encodeVersions attr)
    = Js.replace_crlf
        ("** "
         +:+ (if encodeVersions then Attribution.packageFqn attr
              else Attribution.packageName attr)
         +:+ " - " +:+ Attribution.url attr)
      +:+ " | undefined".
Proof.
  intros Hnone. unfold block_header. rewrite Hnone. cbn [Js.first_or_undefined].
  change (" | " +:+ "undefined") with " | undefined".
  set (title := if encodeVersions then _ else _).
  assert ("** " +:+ title +:+ " - " +:+ Attribution.url attr +:+ " | undefined"
          = ("** " +:+ title +:+ " - " +:+ Attribution.url attr) +:+ " | undefined")
    as -> by (by rewrite !append_assoc).
  by rewrite replace_crlf_app.
Qed.

(** ** C4: the empty document and the first line *)



(** When every dependency is excluded the probe is not even run, the
    document is empty and the versions index is the empty object. *)
Example document_of_empty_closure :
  EncodeVersions.new (H:=node) (consumer_world None)
                     (consumer_props_v1 ["MIT"] (Some "dep") None) []
  = ([], Ok {| EncodeVersions.packageDir := "/consumer";
               EncodeVersions.packageName := "consumer";
               EncodeVersions.dependencies := [];
               EncodeVersions.allowedLicenses := ["mit"];
               EncodeVersions.dependenciesRoot := "/consumer/node_modules";
               EncodeVersions.filePath := "/consumer/THIRD_PARTY_LICENSES";
               EncodeVersions.encodeVersions := false;
               EncodeVersions.attributions := [];
               EncodeVersions.content := "";
               EncodeVersions.versions := "{}" |}).
Proof. by vm_compute. Qed.

(** ** C10: an attribution without licenses *)




(** The document of the tests' tree when [dep1] declares no license. *)
Example document_with_undefined_license :
  ∃ log' self,
    EncodeVersions.new (H:=node) (consumer_world None)
                       (consumer_props_v1 ["MIT"] None None) []
    = (log', Ok self)
    ∧ EncodeVersions.content self
      = "The consumer package includes the following third-party software/licensing:

** dep1 - https://www.npmjs.com/package/dep1 | undefined
MIT License
Copyright

----------------

** dep2 - https://www.npmjs.com/package/dep2 | Apache-2.0
dep2 notice

----------------
".
Proof. eexists _, _. split; [vm_compute; reflexivity|]. by vm_compute. Qed.

(** ** C6: the body of a block and the license text *)

Lemma when_truthy_present v : present v → when_truthy v = v.
Proof. unfold present, when_truthy. by intros ->. Qed.

Lemma when_truthy_absent v : ¬ present v → when_truthy v = None.
Proof. unfold present, when_truthy. by destruct (Js.truthy v). Qed.

(** C6. When [attribute] returns the attributions and [render] returns
    the document for them, the document is made of the blocks of the
    attributions, each a header, a body and the separator. The body is the
    notice text when it is present (defined and not empty), else the license
    text when it is present, else nothing. The license text of a dependency
    is the content of the license file named by the entry that the probe -
    run in [dependenciesRoot] for all dependencies, or else in the directory
    of the dependency - has for it, unless the name of that file,
    lower-cased, ends in ".md" (or the entry names none): then there is no
    license text. *)
Theorem block_body_and_license_text `{Runtime} (w : World)
    (packageName dependenciesRoot : string) (encodeVersions : bool)
    (dependencies : list Package.t) (log log' : ProbeLog)
    (attributions : list Attribution.t) (rendered : Rendered.t) :
  attribute w encodeVersions dependenciesRoot dependencies log
  = (log', Ok attributions) →
  render packageName encodeVersions attributions = Ok rendered →
  Rendered.licenses rendered
  = Js.join Js.LF
      (Js.replace_crlf
       <$> (match attributions with
            | [] => []
            | _ :: _ =>
                [ "The " +:+ packageName
                  +:+ " package includes the following third-party software/licensing:";
                  "" ]
            end)
           ++ ordered attributions
              ≫= λ a, block_header encodeVersions a
                      :: block_body a ++ [ATTRIBUTION_SEPARATOR])
  ∧ (∀ a,
       (∀ text, Attribution.noticeText a = Some text
                → present (Attribution.noticeText a)
                → block_body a = [text])
       ∧ (∀ text, ¬ present (Attribution.noticeText a)
                  → Attribution.licenseText a = Some text
                  → present (Attribution.licenseText a)
                  → block_body a = [text])
       ∧ (¬ present (Attribution.noticeText a)
          → ¬ present (Attribution.licenseText a)
          → block_body a = []))
  ∧ ∃ infos,
      (dependencies ≠ []
       → probe w dependenciesRoot (pkg <$> dependencies) = Some infos)
      ∧ Forall2
          (λ dep a,
             ∃ info,
               located_info w infos dep = Some info
               ∧ match ModuleInfo.licenseFile info with
                 | Some f =>
                     if Js.endsWith (Js.toLowerCase f) ".md"
                     then Attribution.licenseText a = None
                     else if bool_decide (f = "")
                     then Attribution.licenseText a = None
                     else is_Some (files w !! f)
                          ∧ Attribution.licenseText a = files w !! f
                 | None => Attribution.licenseText a = None
                 end)
          dependencies attributions.
Proof.
  intros Hattr (index & _ & ->)%render_Ok. split_and!.
  - done.
  - intros a. unfold block_body. split_and!.
    + intros text Hn Hp. by rewrite (when_truthy_present _ Hp), Hn.
    + intros text Hn Hl Hp.
      by rewrite (when_truthy_absent _ Hn), (when_truthy_present _ Hp), Hl.
    + intros Hn Hl. by rewrite (when_truthy_absent _ Hn), (when_truthy_absent _ Hl).
  - apply attribute_Ok in Hattr
      as [(-> & -> & _)|(_ & infos & Hprobe & Hall & _)].
    { exists ∅. split; [done|constructor]. }
    exists infos. split; [done|]. eapply Forall2_impl; [exact Hall|].
    intros dep a (info & Hinfo & [_ Hreadable] & ->). exists info.
    split; [done|]. cbn [attribution_of Attribution.licenseText].
    unfold license_text. specialize (Hreadable).
    unfold license_file, when_truthy, Js.truthy in *.
    destruct (ModuleInfo.licenseFile info) as [[|c f]|]; cbn; [|  |done].
    + by destruct (Js.endsWith _ _).
    + destruct (Js.endsWith _ _) eqn:Hmd; [done|].
      cbn in Hreadable. rewrite Hmd in Hreadable. split; [|done].
      by apply Hreadable.
Qed.

Lemma block_body_and_license_text_witness :
  ∃ log' attributions rendered,
    attribute (consumer_world (Some (ModuleInfo.One "MIT"))) false
              "/consumer/node_modules" [dep1; dep2] []
    = (log', Ok attributions)
    ∧ render (H:=node) "consumer" false attributions = Ok rendered
    ∧ Rendered.licenses rendered
      = Js.join Js.LF
          (Js.replace_crlf
           <$> (match attributions with
                | [] => []
                | _ :: _ =>
                    [ "The " +:+ "consumer"
                      +:+ " package includes the following third-party software/licensing:";
                      "" ]
                end)
               ++ ordered (H:=node) attributions
                  ≫= λ a, block_header false a
                          :: block_body a ++ [ATTRIBUTION_SEPARATOR])
    ∧ (∀ a,
         (∀ text, Attribution.noticeText a = Some text
                  → present (Attribution.noticeText a)
                  → block_body a = [text])
         ∧ (∀ text, ¬ present (Attribution.noticeText a)
                    → Attribution.licenseText a = Some text
                    → present (Attribution.licenseText a)
                    → block_body a = [text])
         ∧ (¬ present (Attribution.noticeText a)
            → ¬ present (Attribution.licenseText a)
            → block_body a = []))
    ∧ ∃ infos,
        ([dep1; dep2] ≠ []
         → probe (consumer_world (Some (ModuleInfo.One "MIT")))
                 "/consumer/node_modules" (pkg <$> [dep1; dep2])
           = Some infos)
        ∧ Forall2
            (λ dep a,
               ∃ info,
                 located_info (consumer_world (Some (ModuleInfo.One "MIT")))
                              infos dep = Some info
                 ∧ match ModuleInfo.licenseFile info with
                   | Some f =>
                       if Js.endsWith (Js.toLowerCase f) ".md"
                       then Attribution.licenseText a = None
                       else if bool_decide (f = "")
                       then Attribution.licenseText a = None
                       else is_Some (consumer_files !! f)
                            ∧ Attribution.licenseText a = consumer_files !! f
                   | None => Attribution.licenseText a = None
                   end)
            [dep1; dep2] attributions.
Proof.
  eexists _, _, _. split; [vm_compute; reflexivity|].
  split; [vm_compute; reflexivity|].
  match goal with
  | |- Rendered.licenses ?rendered
       = Js.join _ (_ <$> _ ++ ordered ?attributions ≫= _) ∧ _ =>
      eapply (block_body_and_license_text (H:=node)
               (consumer_world (Some (ModuleInfo.One "MIT")))
               "consumer" "/consumer/node_modules" false [dep1; dep2] []
               _ attributions rendered)
  end; vm_compute; reflexivity.
Defined.

(** In the tests' tree: [dep1] has a license file and no notice, so its
    body is the license text; the license file of [dep2] is README.MD, so
    it has no license text, and its body is its notice. An empty notice
    counts as absent. *)
Example bodies_of_the_consumer_blocks :
  ∃ log' attributions,
    attribute (consumer_world (Some (ModuleInfo.One "MIT"))) false
              "/consumer/node_modules" [dep1; dep2] []
    = (log', Ok attributions)
    ∧ Attribution.licenseText <$> attributions
      = [Some ("MIT License" +:+ Js.CRLF +:+ "Copyright"); None]
    ∧ block_body <$> attributions
      = [["MIT License" +:+ Js.CRLF +:+ "Copyright"]; ["dep2 notice"]]
    ∧ block_body {| Attribution.packageFqn := "dep1@0.0.0";
                    Attribution.packageName := "dep1";
                    Attribution.packageVersion := "0.0.0";
                    Attribution.url := "https://www.npmjs.com/package/dep1";
                    Attribution.licenses := ["MIT"];
                    Attribution.licenseText := Some "MIT License";
                    Attribution.noticeText := Some "" |}
      = ["MIT License"].
Proof. eexists _, _. split; [vm_compute; reflexivity|]. by vm_compute. Qed.

(** ** The versions index *)

Lemma get_set_eq {V} (o : Js.object V) k v : Js.get (Js.set o k v) k = Some v.
Proof.
  induction o as [|[k' v'] o IH]; simpl.
  - by case_decide.
  - destruct (decide (k' = k)) as [->|Hne]; simpl; by case_decide.
Qed.

Lemma get_set_ne {V} (o : Js.object V) k k' v :
  k ≠ k' → Js.get (Js.set o k v) k' = Js.get o k'.
Proof.
  intros Hne. induction o as [|[k0 v0] o IH]; simpl.
  - by case_decide.
  - destruct (decide (k0 = k)) as [->|]; simpl.
    + by repeat case_decide.
    + destruct (decide (k0 = k')); [done|]. exact IH.
Qed.

Lemma record_versions_None versions l versions' k :
  for_of record_version versions l = Ok versions'
  → Js.get versions' k = None
    ↔ Js.get versions k = None ∧ ∀ a, a ∈ l → Attribution.packageName a ≠ k.
Proof.
  revert versions. induction l as [|a l IH]; intros versions; cbn [for_of].
  - intros [= <-]. split; [|by intros [? _]].
    intros Hk. split; [done|]. by intros a ?%elem_of_nil.
  - destruct (record_version versions a) as [versions1|e] eqn:Ha; [|done].
    apply record_version_Ok in Ha as [-> _]. intros Hrest.
    rewrite (IH _ Hrest).
    destruct (decide (Attribution.packageName a = k)) as [<-|Hne].
    + rewrite get_set_eq. split; [by intros [? _]|].
      intros [_ Hall]. destruct (Hall a); [left|done].
    + rewrite get_set_ne by done. split.
      * intros [Hk Hall]. split; [done|].
        by intros a' [->|Ha']%elem_of_cons; [|apply Hall].
      * intros [Hk Hall]. split; [done|]. intros a' Ha'. apply Hall. by right.
Qed.

Lemma record_versions_keep versions l versions' k vs :
  for_of record_version versions l = Ok versions'
  → Js.get versions k = Some vs
  → ∃ vs', Js.get versions' k = Some vs' ∧ vs ⊆ vs'.
Proof.
  revert versions vs. induction l as [|a l IH]; intros versions vs; cbn [for_of].
  - intros [= <-] Hk. by exists vs.
  - destruct (record_version versions a) as [versions1|e] eqn:Ha; [|done].
    apply record_version_Ok in Ha as [-> _]. intros Hrest Hk.
    destruct (decide (Attribution.packageName a = k)) as [<-|Hne].
    + edestruct IH as (vs' & Hvs' & Hsub); [exact Hrest|apply get_set_eq|].
      exists vs'. split; [done|]. rewrite Hk in Hsub. simpl in Hsub.
      intros v Hv. apply Hsub, elem_of_app. by left.
    + apply (IH _ _ Hrest). by rewrite get_set_ne.
Qed.

Lemma record_versions_Some versions l versions' a :
  for_of record_version versions l = Ok versions'
  → a ∈ l
  → ∃ vs, Js.get versions' (Attribution.packageName a) = Some vs
          ∧ Attribution.packageVersion a ∈ vs.
Proof.
  revert versions. induction l as [|a' l IH]; intros versions; cbn [for_of].
  { by intros _ ?%elem_of_nil. }
  destruct (record_version versions a') as [versions1|e] eqn:Ha; [|done].
  intros Hrest [<-|Hin]%elem_of_cons; [|by apply (IH _ Hrest)].
  apply record_version_Ok in Ha as [-> _].
  edestruct record_versions_keep as (vs' & Hvs' & Hsub);
    [exact Hrest|apply get_set_eq|].
  exists vs'. split; [done|]. apply Hsub, elem_of_app. right. by left.
Qed.

Lemma attribute_names w encodeVersions root deps log log' attributions :
  attribute w encodeVersions root deps log = (log', Ok attributions)
  → Forall2 (λ d a, Attribution.packageName a = Package.name d
                    ∧ Attribution.packageFqn a = pkg d
                    ∧ Attribution.packageVersion a = Package.version d)
            deps attributions.
Proof.
  intros [(-> & -> & _)|(_ & infos & _ & Hall & _)]%attribute_Ok; [constructor|].
  eapply Forall2_impl; [exact Hall|]. by intros d a (info & _ & _ & ->).
Qed.

(** ** C7: excluded dependencies *)

Lemma elem_of_filter_kept `{Runtime} exclude (d : Package.t) deps :
  d ∈ List.filter (kept exclude) deps ↔ d ∈ deps ∧ kept exclude d = true.
Proof. rewrite !list_elem_of_In. apply filter_In. Qed.

Lemma Forall2_elem_of_l {A B} (R : A → B → Prop) l k x :
  Forall2 R l k → x ∈ l → ∃ y, y ∈ k ∧ R x y.
Proof.
  induction 1 as [|x' y' l k HR _ IH]; [by intros ?%elem_of_nil|].
  intros [->|Hx]%elem_of_cons.
  - exists y'. split; [left|done].
  - destruct (IH Hx) as (y & Hy & HRy). exists y. split; [by right|done].
Qed.

Lemma Forall2_elem_of_r {A B} (R : A → B → Prop) l k y :
  Forall2 R l k → y ∈ k → ∃ x, x ∈ l ∧ R x y.
Proof.
  induction 1 as [|x' y' l k HR _ IH]; [by intros ?%elem_of_nil|].
  intros [->|Hy]%elem_of_cons.
  - exists x'. split; [left|done].
  - destruct (IH Hy) as (x & Hx & HRx). exists x. split; [by right|done].
Qed.

(** C7. When [exclude] is set (to a non-empty pattern), the constructor
    keeps the dependencies whose name the pattern does not match, and both
    the document and the versions index are computed from the attributions
    of the dependencies that are kept. So a dependency whose name matches
    has no block in the document and its name is no key of the versions
    index, and a dependency whose name does not match has its block and
    its version under its name in the index. *)
Theorem excluded_dependencies_are_not_attributed `{Runtime} (w : World)
    (props : EncodeVersions.AttributionsProps.t) (log log' : ProbeLog)
    (self : EncodeVersions.t) (pattern : string) :
  EncodeVersions.new w props log = (log', Ok self) →
  when_truthy (EncodeVersions.AttributionsProps.exclude props) = Some pattern →
  EncodeVersions.content self
  = Js.join Js.LF
      (Js.replace_crlf
       <$> (match EncodeVersions.attributions self with
            | [] => []
            | _ :: _ => [first_line (EncodeVersions.packageName self); ""]
            end)
           ++ (ordered (EncodeVersions.attributions self)
               ≫= block (EncodeVersions.encodeVersions self)))
  ∧ ∃ index,
      versions_index (EncodeVersions.attributions self) = Ok index
      ∧ EncodeVersions.versions self = Js.JSON_stringify index
      ∧ (∀ d, d ∈ EncodeVersions.AttributionsProps.dependencies props
              → RegExp_test pattern (Package.name d) = Some true
              → (d ∉ EncodeVersions.dependencies self)
                ∧ (∀ a, a ∈ ordered (EncodeVersions.attributions self)
                        → Attribution.packageName a ≠ Package.name d)
                ∧ Js.get index (Package.name d) = None)
      ∧ (∀ d, d ∈ EncodeVersions.AttributionsProps.dependencies props
              → RegExp_test pattern (Package.name d) = Some false
              → d ∈ EncodeVersions.dependencies self
                ∧ (∃ a, a ∈ ordered (EncodeVersions.attributions self)
                        ∧ Attribution.packageFqn a = pkg d
                        ∧ Attribution.packageName a = Package.name d)
                ∧ ∃ versions,
                    Js.get index (Package.name d) = Some versions
                    ∧ Package.version d ∈ versions).
Proof.
  intros (attributions & Hattr & Hdeps & _ & Hflag & _ & Hattrs & Hrender)
    %EncodeVersions_new_Ok Hexclude.
  apply render_Ok in Hrender as (index & Hindex & [= Hcontent Hversions]).
  rewrite Hcontent, Hattrs, Hdeps, Hflag.
  apply attribute_names in Hattr.
  split; [done|]. exists index. split_and!; [done..| |].
  - intros d Hd Hmatch.
    assert (∀ a, a ∈ attributions → Attribution.packageName a ≠ Package.name d)
      as Hnone.
    { intros a (d' & [Hd' Hkept]%elem_of_filter_kept & Hname & _)
        %(Forall2_elem_of_r _ _ _ _ Hattr) Heq.
      unfold kept in Hkept. rewrite Hexclude in Hkept.
      apply bool_decide_eq_true in Hkept. congruence. }
    split_and!.
    + intros [_ Hkept]%elem_of_filter_kept.
      unfold kept in Hkept. rewrite Hexclude in Hkept.
      apply bool_decide_eq_true in Hkept. congruence.
    + intros a Ha. apply Hnone. by rewrite <- (ordered_perm attributions).
    + apply (record_versions_None _ _ _ _ Hindex). split; [done|].
      intros a Ha. apply Hnone. by rewrite <- (ordered_perm attributions).
  - intros d Hd Hmatch.
    assert (d ∈ List.filter (kept (EncodeVersions.AttributionsProps.exclude props))
                            (EncodeVersions.AttributionsProps.dependencies props))
      as Hkept.
    { apply elem_of_filter_kept. split; [done|].
      unfold kept. rewrite Hexclude. by apply bool_decide_eq_true. }
    destruct (Forall2_elem_of_l _ _ _ _ Hattr Hkept)
      as (a & Ha & Hname & Hfqn & Hversion).
    rewrite <- (ordered_perm attributions) in Ha.
    split_and!; [done|by exists a|].
    rewrite <- Hname, <- Hversion.
    by apply (record_versions_Some _ _ _ _ Hindex).
Qed.

Lemma excluded_dependencies_are_not_attributed_witness :
  ∃ log' self,
    EncodeVersions.new (H:=node) (consumer_world (Some (ModuleInfo.One "MIT")))
                       (consumer_props_v1 ["MIT"] (Some "dep2") None) []
    = (log', Ok self)
    ∧ when_truthy (Some "dep2") = Some "dep2"
    ∧ EncodeVersions.content self
      = Js.join Js.LF
          (Js.replace_crlf
           <$> (match EncodeVersions.attributions self with
                | [] => []
                | _ :: _ => [first_line (EncodeVersions.packageName self); ""]
                end)
               ++ (ordered (H:=node) (EncodeVersions.attributions self)
                   ≫= block (EncodeVersions.encodeVersions self)))
    ∧ ∃ index,
        versions_index (H:=node) (EncodeVersions.attributions self) = Ok index
        ∧ EncodeVersions.versions self = Js.JSON_stringify index
        ∧ (∀ d, d ∈ [dep1; dep2]
                → literal_test "dep2" (Package.name d) = Some true
                → (d ∉ EncodeVersions.dependencies self)
                  ∧ (∀ a, a ∈ ordered (H:=node) (EncodeVersions.attributions self)
                          → Attribution.packageName a ≠ Package.name d)
                  ∧ Js.get index (Package.name d) = None)
        ∧ (∀ d, d ∈ [dep1; dep2]
                → literal_test "dep2" (Package.name d) = Some false
                → d ∈ EncodeVersions.dependencies self
                  ∧ (∃ a, a ∈ ordered (H:=node) (EncodeVersions.attributions self)
                          ∧ Attribution.packageFqn a = pkg d
                          ∧ Attribution.packageName a = Package.name d)
                  ∧ ∃ versions,
                      Js.get index (Package.name d) = Some versions
                      ∧ Package.version d ∈ versions).
Proof.
  eexists _, _. split; [vm_compute; reflexivity|]. split; [done|].
  eapply (excluded_dependencies_are_not_attributed (H:=node)
            (consumer_world (Some (ModuleInfo.One "MIT")))
            (consumer_props_v1 ["MIT"] (Some "dep2") None) [] _ _ "dep2").
  - vm_compute; reflexivity.
  - done.
Defined.

(** The same holds for the later revision of the constructor. *)
Lemma excluded_dependencies_versions_path `{Runtime} (w : World)
    (props : VersionsPath.AttributionsProps.t) (log log' : ProbeLog)
    (self : VersionsPath.t) (pattern : string) :
  VersionsPath.new w props log = (log', Ok self) →
  when_truthy (VersionsPath.AttributionsProps.exclude props) = Some pattern →
  VersionsPath.licenses self
  = Js.join Js.LF
      (Js.replace_crlf
       <$> (match VersionsPath.attributions self with
            | [] => []
            | _ :: _ => [first_line (VersionsPath.packageName self); ""]
            end)
           ++ (ordered (VersionsPath.attributions self)
               ≫= block (negb (Js.truthy (VersionsPath.versionsPath self)))))
  ∧ ∃ index,
      versions_index (VersionsPath.attributions self) = Ok index
      ∧ VersionsPath.versions self = Js.JSON_stringify index
      ∧ (∀ d, d ∈ VersionsPath.AttributionsProps.dependencies props
              → RegExp_test pattern (Package.name d) = Some true
              → (d ∉ VersionsPath.dependencies self)
                ∧ (∀ a, a ∈ ordered (VersionsPath.attributions self)
                        → Attribution.packageName a ≠ Package.name d)
                ∧ Js.get index (Package.name d) = None)
      ∧ (∀ d, d ∈ VersionsPath.AttributionsProps.dependencies props
              → RegExp_test pattern (Package.name d) = Some false
              → d ∈ VersionsPath.dependencies self
                ∧ (∃ a, a ∈ ordered (VersionsPath.attributions self)
                        ∧ Attribution.packageFqn a = pkg d
                        ∧ Attribution.packageName a = Package.name d)
                ∧ ∃ versions,
                    Js.get index (Package.name d) = Some versions
                    ∧ Package.version d ∈ versions).
Proof.
  intros (attributions & Hattr & Hdeps & _ & _ & Hattrs & Hrender)
    %VersionsPath_new_Ok Hexclude.
  apply render_Ok in Hrender as (index & Hindex & [= Hcontent Hversions]).
  rewrite Hcontent, Hattrs, Hdeps.
  apply attribute_names in Hattr.
  split; [done|]. exists index. split_and!; [done..| |].
  - intros d Hd Hmatch.
    assert (∀ a, a ∈ attributions → Attribution.packageName a ≠ Package.name d)
      as Hnone.
    { intros a (d' & [Hd' Hkept]%elem_of_filter_kept & Hname & _)
        %(Forall2_elem_of_r _ _ _ _ Hattr) Heq.
      unfold kept in Hkept. rewrite Hexclude in Hkept.
      apply bool_decide_eq_true in Hkept. congruence. }
    split_and!.
    + intros [_ Hkept]%elem_of_filter_kept.
      unfold kept in Hkept. rewrite Hexclude in Hkept.
      apply bool_decide_eq_true in Hkept. congruence.
    + intros a Ha. apply Hnone. by rewrite <- (ordered_perm attributions).
    + apply (record_versions_None _ _ _ _ Hindex). split; [done|].
      intros a Ha. apply Hnone. by rewrite <- (ordered_perm attributions).
  - intros d Hd Hmatch.
    assert (d ∈ List.filter (kept (VersionsPath.AttributionsProps.exclude props))
                            (VersionsPath.AttributionsProps.dependencies props))
      as Hkept.
    { apply elem_of_filter_kept. split; [done|].
      unfold kept. rewrite Hexclude. by apply bool_decide_eq_true. }
    destruct (Forall2_elem_of_l _ _ _ _ Hattr Hkept)
      as (a & Ha & Hname & Hfqn & Hversion).
    rewrite <- (ordered_perm attributions) in Ha.
    split_and!; [done|by exists a|].
    rewrite <- Hname, <- Hversion.
    by apply (record_versions_Some _ _ _ _ Hindex).
Qed.

(** ** C8: the invocations of the probe *)

Lemma read_if_set_readable w file log :
  (∀ f, when_truthy file = Some f → is_Some (files w !! f))
  → read_if_set w file log = (log, Ok (f ← when_truthy file; files w !! f)).
Proof.
  intros Hreadable. unfold read_if_set, readFileSync.
  destruct (when_truthy file) as [f|]; [|done].
  destruct (Hreadable f eq_refl) as [text Htext]. simpl. by rewrite Htext.
Qed.

Lemma bind_eq {A B} (m : M A) (k : A → M B) log log1 a :
  m log = (log1, Ok a) → bind m k log = k a log1.
Proof. unfold bind. by intros ->. Qed.

Lemma attribute_dependency_located w encodeVersions infos dep info log :
  located_info w infos dep = Some info
  → readable w info
  → attribute_dependency w encodeVersions infos dep log
    = (log ++ fallback_calls infos dep,
       Ok (attribution_of w encodeVersions dep info)).
Proof.
  intros Hinfo [Hnotice Hlicense]. unfold attribute_dependency.
  erewrite bind_eq; cycle 1.
  { unfold located_info, fallback_calls in *.
    instantiate (1 := Some info). instantiate (1 := log ++ fallback_calls infos dep).
    unfold fallback_calls.
    destruct (infos !! pkg dep) as [info'|].
    - simplify_eq. by rewrite (right_id_L [] (++)).
    - unfold bind, fetchInfos, ret.
      destruct (probe w (Package.path dep) [pkg dep]) as [own|]; [|done].
      simpl in Hinfo. by rewrite Hinfo. }
  cbv beta iota.
  erewrite bind_eq by (by apply read_if_set_readable).
  erewrite bind_eq
    by (apply read_if_set_readable; by rewrite license_file_alt).
  rewrite license_file_alt. unfold ret. f_equal. f_equal.
  unfold attribution_of, package_url, declared_licenses, license_text, notice_text.
  f_equal. by destruct (ModuleInfo.licenses info) as [[[|c s]|all]|].
Qed.

Lemma for_each_located w encodeVersions infos deps log :
  (∀ d, d ∈ deps → ∃ info, located_info w infos d = Some info ∧ readable w info)
  → ∃ attributions,
      for_each (attribute_dependency w encodeVersions infos) deps log
      = (log ++ deps ≫= fallback_calls infos, Ok attributions).
Proof.
  revert log. induction deps as [|d deps IH]; intros log Hall.
  - exists []. simpl. by rewrite (right_id_L [] (++)).
  - destruct (Hall d) as (info & Hinfo & Hreadable); [left|].
    destruct (IH (log ++ fallback_calls infos d)) as (attributions & Hrest).
    { intros d' Hd'. apply Hall. by right. }
    exists (attribution_of w encodeVersions d info :: attributions).
    cbn [for_each].
    erewrite bind_eq by (by apply attribute_dependency_located).
    erewrite bind_eq by exact Hrest.
    unfold ret. by rewrite bind_cons, (assoc_L (++)).
Qed.

Lemma for_each_throw {A B} (f : A → M B) before x after log log1 ys log2 e :
  for_each f before log = (log1, Ok ys)
  → f x log1 = (log2, Throw e)
  → for_each f (before ++ x :: after) log = (log2, Throw e).
Proof.
  intros Hbefore Hx. rewrite for_each_app.
  erewrite bind_eq by exact Hbefore.
  cbn [for_each]. unfold bind at 1. unfold bind at 1. by rewrite Hx.
Qed.

(** C8. [attribute] runs the probe once in [dependenciesRoot] with the
    identifiers name@version of all dependencies, and then, in the order of
    the dependencies, once more in the own directory of every dependency
    that the first run does not know, asking for that dependency alone.
    When every dependency is located by one of the two runs (and the files
    the probe names can be read) these are all the invocations and
    [attribute] returns the attributions. A dependency that is unknown to
    both runs makes [attribute] throw: there is no result, and for the
    first such dependency the exception is the error "Unable to locate
    license information for name@version (path)", thrown right after the
    run in its directory. Without dependencies the probe is not run. *)
Theorem attribute_probe_invocations (w : World) (encodeVersions : bool)
    (dependenciesRoot : string) (dependencies : list Package.t)
    (log : ProbeLog) (infos : gmap string ModuleInfo.t) :
  dependencies ≠ [] →
  probe w dependenciesRoot (pkg <$> dependencies) = Some infos →
  (∀ log' attributions,
     attribute w encodeVersions dependenciesRoot dependencies log
     = (log', Ok attributions)
     → log' = log ++ (dependenciesRoot, pkg <$> dependencies)
                     :: dependencies ≫= fallback_calls infos
       ∧ ∀ d, d ∈ dependencies → is_Some (located_info w infos d))
  ∧ ((∀ d, d ∈ dependencies
           → ∃ info, located_info w infos d = Some info ∧ readable w info)
     → ∃ attributions,
         attribute w encodeVersions dependenciesRoot dependencies log
         = (log ++ (dependenciesRoot, pkg <$> dependencies)
                   :: dependencies ≫= fallback_calls infos,
            Ok attributions))
  ∧ (∀ d, d ∈ dependencies → located_info w infos d = None
          → ∃ log' e,
              attribute w encodeVersions dependenciesRoot dependencies log
              = (log', Throw e))
  ∧ (∀ before d after own,
       dependencies = before ++ d :: after
       → (∀ d', d' ∈ before
                → ∃ info, located_info w infos d' = Some info ∧ readable w info)
       → infos !! pkg d = None
       → probe w (Package.path d) [pkg d] = Some own
       → own !! pkg d = None
       → attribute w encodeVersions dependenciesRoot dependencies log
         = (log ++ (dependenciesRoot, pkg <$> dependencies)
                   :: (before ≫= fallback_calls infos)
                   ++ [(Package.path d, [pkg d])],
            Throw (unable_to_locate d))).
Proof.
  intros Hne Hprobe.
  assert (∀ l, l ≠ []
               → attribute w encodeVersions dependenciesRoot l log
                 = bind (fetchInfos w dependenciesRoot (pkg <$> l))
                        (λ infos, for_each (attribute_dependency w encodeVersions infos) l)
                        log) as Hunfold.
  { intros [|d l] Hl; done. }
  assert (fetchInfos w dependenciesRoot (pkg <$> dependencies) log
          = (log ++ [(dependenciesRoot, pkg <$> dependencies)], Ok infos))
    as Hglobal.
  { unfold fetchInfos. by rewrite Hprobe. }
  assert (∀ log' attributions,
            attribute w encodeVersions dependenciesRoot dependencies log
            = (log', Ok attributions)
            → log' = log ++ (dependenciesRoot, pkg <$> dependencies)
                            :: dependencies ≫= fallback_calls infos
              ∧ ∀ d, d ∈ dependencies → is_Some (located_info w infos d))
    as Hsuccess.
  { intros log' attributions
      [(-> & _)|(_ & infos' & Hprobe' & Hall & ->)]%attribute_Ok; [done|].
    rewrite Hprobe in Hprobe'. simplify_eq. split; [done|].
    intros d (a & _ & info & -> & _)%(Forall2_elem_of_l _ _ _ _ Hall). eauto. }
  split_and!.
  - exact Hsuccess.
  - intros Hall. rewrite Hunfold by done. erewrite bind_eq by exact Hglobal.
    destruct (for_each_located w encodeVersions infos dependencies
                (log ++ [(dependenciesRoot, pkg <$> dependencies)]) Hall)
      as (attributions & ->).
    exists attributions. by rewrite <- (assoc_L (++)).
  - intros d Hd Hnone.
    destruct (attribute w encodeVersions dependenciesRoot dependencies log)
      as [log' [attributions|e]] eqn:Hrun; [|eauto].
    destruct (Hsuccess _ _ eq_refl) as [_ Hall].
    destruct (Hall d Hd) as [info Hinfo]. congruence.
  - intros before d after own -> Hbefore Hinfo Hown Hmissing.
    rewrite Hunfold by done. erewrite bind_eq by exact Hglobal.
    destruct (for_each_located w encodeVersions infos before
                (log ++ [(dependenciesRoot, pkg <$> before ++ d :: after)]) Hbefore)
      as (attributions & Hloop).
    erewrite for_each_throw;
      [|exact Hloop|by eapply attribute_dependency_unlocated].
    by rewrite <- !(assoc_L (++)).
Qed.

Lemma attribute_probe_invocations_witness :
  [dep1; dep2] ≠ []
  ∧ probe (consumer_world (Some (ModuleInfo.One "MIT")))
          "/consumer/node_modules" (pkg <$> [dep1; dep2])
    = Some {[ "dep1@0.0.0" := dep1_info (Some (ModuleInfo.One "MIT")) ]}
  ∧ ∃ attributions,
      attribute (consumer_world (Some (ModuleInfo.One "MIT"))) false
                "/consumer/node_modules" [dep1; dep2] []
      = ([("/consumer/node_modules", ["dep1@0.0.0"; "dep2@0.0.0"]);
          ("/consumer/node_modules/dep2", ["dep2@0.0.0"])],
         Ok attributions).
Proof.
  split; [done|]. split; [vm_compute; reflexivity|].
  destruct (attribute_probe_invocations
              (consumer_world (Some (ModuleInfo.One "MIT"))) false
              "/consumer/node_modules" [dep1; dep2] []
              {[ "dep1@0.0.0" := dep1_info (Some (ModuleInfo.One "MIT")) ]})
    as (_ & Hreturns & _); [done|vm_compute; reflexivity|].
  apply Hreturns.
  intros d [->|[->|[]%elem_of_nil]%elem_of_cons]%elem_of_cons.
  - exists (dep1_info (Some (ModuleInfo.One "MIT"))).
    split; [vm_compute; reflexivity|].
    split; intros f Hf; vm_compute in Hf; simplify_eq;
      eexists; vm_compute; reflexivity.
  - exists dep2_info.
    split; [vm_compute; reflexivity|].
    split; intros f Hf; vm_compute in Hf; simplify_eq;
      eexists; vm_compute; reflexivity.
Defined.

(** A dependency that neither run knows stops the attribution: after the
    run for all dependencies and the run in its own directory the error is
    thrown, and the constructor has no result either. *)
Example attribute_fails_for_unknown_dependency :
  attribute (consumer_world (Some (ModuleInfo.One "MIT"))) false
            "/consumer/node_modules" [dep1; dep3; dep2] []
  = ([("/consumer/node_modules", ["dep1@0.0.0"; "dep3@1.0.0"; "dep2@0.0.0"]);
      ("/consumer/node_modules/dep3", ["dep3@1.0.0"])],
     Throw (Error ("Unable to locate license information for dep3@1.0.0"
                   +:+ " (/consumer/node_modules/dep3)")))
  ∧ (VersionsPath.new (H:=node) (consumer_world (Some (ModuleInfo.One "MIT")))
       {| VersionsPath.AttributionsProps.packageDir := "/consumer";
          VersionsPath.AttributionsProps.packageName := "consumer";
          VersionsPath.AttributionsProps.dependencies := [dep1; dep3; dep2];
          VersionsPath.AttributionsProps.dependenciesRoot := "/consumer/node_modules";
          VersionsPath.AttributionsProps.licensesPath := "THIRD_PARTY_LICENSES";
          VersionsPath.AttributionsProps.allowedLicenses := ["MIT"];
          VersionsPath.AttributionsProps.exclude := None;
          VersionsPath.AttributionsProps.versionsPath := None |} []).2
    = Throw (unable_to_locate dep3).
Proof. split; vm_compute; reflexivity. Qed.

(** ** C9: determinism and line endings *)

Lemma bind_ext {A B} (m1 m2 : M A) (k1 k2 : A → M B) log :
  m1 log = m2 log
  → (∀ a log1, m2 log = (log1, Ok a) → k1 a log1 = k2 a log1)
  → bind m1 k1 log = bind m2 k2 log.
Proof.
  intros Hm Hk. unfold bind. rewrite Hm.
  destruct (m2 log) as [log1 [a|e]]; [by apply Hk|done].
Qed.

Lemma for_each_ext {A B} (f g : A → M B) l log :
  (∀ x log1, x ∈ l → f x log1 = g x log1)
  → for_each f l log = for_each g l log.
Proof.
  revert log. induction l as [|x l IH]; intros log Hfg; [done|].
  cbn [for_each]. apply bind_ext; [apply Hfg; left|].
  intros y log1 _. apply bind_ext; [|done].
  apply IH. intros x' log2 Hx'. apply Hfg. by right.
Qed.

Lemma filter_array_ext {A} (p q : A → M bool) l log :
  (∀ x log1, x ∈ l → p x log1 = q x log1)
  → filter_array p l log = filter_array q l log.
Proof.
  revert log. induction l as [|x l IH]; intros log Hpq; [done|].
  cbn [filter_array]. apply bind_ext; [apply Hpq; left|].
  intros keep log1 _. apply bind_ext; [|done].
  apply IH. intros x' log2 Hx'. apply Hpq. by right.
Qed.

Lemma sort_insert_ext {A} (c1 c2 : A → A → Z) x l :
  (∀ y, y ∈ l → c1 x y = c2 x y)
  → Js.sort_insert c1 x l = Js.sort_insert c2 x l.
Proof.
  induction l as [|y l IH]; intros Hc; [done|]. simpl.
  rewrite (Hc y) by left. destruct (c2 x y <=? 0)%Z; [done|].
  f_equal. apply IH. intros y' Hy'. apply Hc. by right.
Qed.

Lemma sort_ext {A} (c1 c2 : A → A → Z) l :
  (∀ x y, x ∈ l → y ∈ l → c1 x y = c2 x y)
  → Js.sort c1 l = Js.sort c2 l.
Proof.
  induction l as [|x l IH]; intros Hc; [done|]. simpl.
  rewrite IH by (intros y z Hy Hz; apply Hc; by right).
  apply sort_insert_ext. intros y Hy. rewrite sort_perm in Hy.
  apply Hc; [left|by right].
Qed.

(** Two worlds that answer alike where [attribute] asks. *)
Section same_inputs.
Variables w1 w2 : World.
Variables (dependenciesRoot : string) (dependencies : list Package.t).
Hypothesis same_probe_in_root :
  ∀ packages,
    probe w1 dependenciesRoot packages = probe w2 dependenciesRoot packages.
Hypothesis same_probe_in_directory :
  ∀ d, d ∈ dependencies
       → probe w1 (Package.path d) [pkg d] = probe w2 (Package.path d) [pkg d].
Hypothesis same_named_files :
  ∀ cwd packages infos key info file,
    probe w1 cwd packages = Some infos
    → infos !! key = Some info
    → names_file info file
    → files w1 !! file = files w2 !! file.

Lemma read_if_set_same file log :
  (∀ f, file = Some f → files w1 !! f = files w2 !! f)
  → read_if_set w1 file log = read_if_set w2 file log.
Proof.
  intros Hsame. unfold read_if_set, readFileSync, when_truthy.
  destruct file as [f|]; [|done]. destruct (Js.truthy (Some f)); [|done].
  by rewrite (Hsame f).
Qed.

Lemma attribute_dependency_same encodeVersions infos dep log :
  dep ∈ dependencies
  → (∀ key info file, infos !! key = Some info → names_file info file
                      → files w1 !! file = files w2 !! file)
  → attribute_dependency w1 encodeVersions infos dep log
    = attribute_dependency w2 encodeVersions infos dep log.
Proof.
  intros Hdep Hinfos. unfold attribute_dependency. apply bind_ext.
  - destruct (infos !! pkg dep); [done|].
    apply bind_ext; [|done]. unfold fetchInfos.
    by rewrite same_probe_in_directory.
  - intros [info|] log1 Hlocated; [|done].
    assert (∀ file, names_file info file → files w1 !! file = files w2 !! file)
      as Hnamed.
    { destruct (infos !! pkg dep) as [info'|] eqn:Hroot.
      - apply ret_Ok in Hlocated as [_ [= ->]]. intros file. by eapply Hinfos.
      - apply bind_Ok in Hlocated as (own & log2 & Hown & [_ Hkey]%ret_Ok).
        unfold fetchInfos in Hown.
        destruct (probe w2 (Package.path dep) [pkg dep]) as [own'|] eqn:Hprobe;
          [|done].
        injection Hown as _ ->.
        rewrite <- same_probe_in_directory in Hprobe by done.
        intros file. by eapply same_named_files. }
    apply bind_ext.
    { apply read_if_set_same. intros f Hf. apply Hnamed. by left. }
    intros noticeText log2 _. apply bind_ext; [|done].
    apply read_if_set_same. intros f Hf. apply Hnamed. right.
    destruct (ModuleInfo.licenseFile info) as [f'|]; [|done].
    by destruct (Js.endsWith (Js.toLowerCase f') ".md"); simplify_eq.
Qed.

Lemma attribute_same encodeVersions deps log :
  deps ⊆ dependencies
  → attribute w1 encodeVersions dependenciesRoot deps log
    = attribute w2 encodeVersions dependenciesRoot deps log.
Proof.
  intros Hsub. unfold attribute. destruct deps as [|d deps]; [done|].
  apply bind_ext.
  - unfold fetchInfos. by rewrite same_probe_in_root.
  - intros infos log1 Hroot. apply for_each_ext. intros dep log2 Hdep.
    apply attribute_dependency_same; [by apply Hsub|].
    unfold fetchInfos in Hroot.
    destruct (probe w2 dependenciesRoot (pkg <$> d :: deps)) as [infos'|]
      eqn:Hprobe; [|done].
    injection Hroot as _ ->. rewrite <- same_probe_in_root in Hprobe.
    intros key info file. by eapply same_named_files.
Qed.
End same_inputs.

(** Two runtimes that compare the identifiers alike render alike. *)
Lemma render_same (H1 H2 : Runtime) packageName encodeVersions attributions :
  (∀ a1 a2, a1 ∈ attributions → a2 ∈ attributions
            → localeCompare (Runtime:=H1) (Attribution.packageFqn a1)
                            (Attribution.packageFqn a2)
              = localeCompare (Runtime:=H2) (Attribution.packageFqn a1)
                              (Attribution.packageFqn a2))
  → render (H:=H1) packageName encodeVersions attributions
    = render (H:=H2) packageName encodeVersions attributions.
Proof.
  intros Hcmp. unfold render, render_loop, ordered.
  by rewrite (sort_ext _ _ _ Hcmp).
Qed.

Lemma replace_crlf_CR_free s : has_CR s = false → Js.replace_crlf s = s.
Proof.
  induction s as [|c s IH]; [done|]. cbn [has_CR].
  intros [Hc Hs]%orb_false_elim.
  rewrite replace_crlf_other by (left; intros ->; by rewrite Ascii.eqb_refl in Hc).
  by rewrite IH.
Qed.

(** A text with the line endings CR LF becomes the text with the line
    endings LF. *)
Lemma replace_crlf_join pieces :
  (∀ piece, piece ∈ pieces → has_CR piece = false)
  → Js.replace_crlf (Js.join Js.CRLF pieces) = Js.join Js.LF pieces.
Proof.
  induction pieces as [|p [|q pieces] IH]; intros Hfree.
  - done.
  - apply replace_crlf_CR_free, Hfree. left.
  - rewrite !join_cons, replace_crlf_occurrence.
    rewrite replace_crlf_CR_free by (apply Hfree; left).
    rewrite IH; [done|]. intros piece Hpiece. apply Hfree. by right.
Qed.




(** [replace] makes one pass: the pairs of the text are replaced, and a
    carriage return in front of a pair is then followed by a line feed. *)
Example replace_crlf_makes_one_pass :
  Js.replace_crlf ("a" +:+ Js.CRLF +:+ "b" +:+ Js.CRLF) = "a" +:+ Js.LF +:+ "b" +:+ Js.LF
  ∧ Js.replace_crlf ("a" +:+ Js.CR +:+ Js.CRLF +:+ "b") = "a" +:+ Js.CRLF +:+ "b".
Proof. split; reflexivity. Qed.

(** ** The scenarios of the repository's tests *)

(** A versions file is configured: absent, it is reported missing; present
    with other content, it is reported outdated (and so is the licenses
    file). *)
Example versions_file_missing_then_outdated :
  ∃ log' self,
    VersionsPath.new (H:=node) (consumer_world (Some (ModuleInfo.One "MIT")))
                     separate_versions_props []
    = (log', Ok self)
    ∧ (λ v, (Violation.type v, Violation.message v))
      <$> ViolationsReport.violations
            (VersionsPath.validate (H:=node) self
               (<["/consumer/THIRD_PARTY_LICENSES" := VersionsPath.licenses self]>
                  consumer_files))
      = [(MISSING_VERSIONS, "THIRD_PARTY_VERSIONS is missing")]
    ∧ (λ v, (Violation.type v, Violation.message v))
      <$> ViolationsReport.violations
            (VersionsPath.validate (H:=node) self
               (<["/consumer/THIRD_PARTY_LICENSES" := "outdated"]>
                  (<["/consumer/THIRD_PARTY_VERSIONS" := "outdated"]>
                     consumer_files)))
      = [(OUTDATED_LICENSES, "THIRD_PARTY_LICENSES is outdated");
         (OUTDATED_VERSIONS, "THIRD_PARTY_VERSIONS is outdated")].
Proof.
  eexists _, _. split; [vm_compute; reflexivity|].
  split; vm_compute; reflexivity.
Qed.

(** The license violations of the validate test: [dep1] with the license
    the probe could not identify, [dep2] with two licenses, and the
    allow-list ["Apache-2.0"]. *)
Example license_violations_of_the_validate_test :
  (λ attributions,
     (λ v, (Violation.type v, Violation.message v))
     <$> invalidLicense ["apache-2.0"] attributions
         ++ noLicense attributions ++ multiLicense attributions)
    [ {| Attribution.packageFqn := "dep1@0.0.0";
         Attribution.packageName := "dep1";
         Attribution.packageVersion := "0.0.0";
         Attribution.url := "https://www.npmjs.com/package/dep1/v/0.0.0";
         Attribution.licenses := ["UNKNOWN"];
         Attribution.licenseText := None;
         Attribution.noticeText := None |};
      {| Attribution.packageFqn := "dep2@0.0.0";
         Attribution.packageName := "dep2";
         Attribution.packageVersion := "0.0.0";
         Attribution.url := "https://www.npmjs.com/package/dep2/v/0.0.0";
         Attribution.licenses := ["Apache-2.0"; "MIT"];
         Attribution.licenseText := None;
         Attribution.noticeText := None |} ]
  = [(INVALID_LICENSE, "Dependency dep1@0.0.0 has an invalid license: UNKNOWN");
     (MULTIPLE_LICENSE,
      "Dependency dep2@0.0.0 has multiple licenses: Apache-2.0,MIT")].
Proof. vm_compute; reflexivity. Qed.

(** * Further properties *)

(** ** The notice file of src/api/_attributions.ts *)

Lemma EncodeVersions_validate_spec `{Runtime} (self : EncodeVersions.t)
    (fs : gmap string string) :
  ViolationsReport.violations (EncodeVersions.validate self fs)
  = match fs !! EncodeVersions.filePath self with
    | None =>
        [ {| Violation.type := MISSING_NOTICE;
             Violation.message :=
               path_relative (EncodeVersions.packageDir self)
                             (EncodeVersions.filePath self) +:+ " is missing";
             Violation.fix_ := Some (EncodeVersions.flushAttributions self) |} ]
    | Some text =>
        if String.eqb text (EncodeVersions.content self) then []
        else [ {| Violation.type := OUTDATED_ATTRIBUTIONS;
                  Violation.message :=
                    path_relative (EncodeVersions.packageDir self)
                                  (EncodeVersions.filePath self) +:+ " is outdated";
                  Violation.fix_ := Some (EncodeVersions.flushAttributions self) |} ]
    end
    ++ invalidLicense (EncodeVersions.allowedLicenses self)
                      (EncodeVersions.attributions self)
    ++ noLicense (EncodeVersions.attributions self)
    ++ multiLicense (EncodeVersions.attributions self).
Proof.
  unfold EncodeVersions.validate, existsSync. cbn [ViolationsReport.violations].
  rewrite <- !(assoc_L (++)).
  destruct (fs !! EncodeVersions.filePath self) as [text|] eqn:Hl.
  - rewrite bool_decide_eq_true_2 by eauto. cbn [negb].
    by destruct (String.eqb text (EncodeVersions.content self)).
  - rewrite bool_decide_eq_false_2 by (by intros [? ?]). done.
Qed.

(** X1. In the revision with [filePath], [validate] reports a missing
    notice exactly when there is no file at [filePath], and outdated
    attributions exactly when there is one whose content is not the
    generated document; it never reports both, and each of the two carries
    [flushAttributions] as its fix. *)
Theorem validate_reports_notice_file `{Runtime} (self : EncodeVersions.t)
    (fs : gmap string string) :
  (reported MISSING_NOTICE (EncodeVersions.validate self fs)
   ↔ fs !! EncodeVersions.filePath self = None)
  ∧ (reported OUTDATED_ATTRIBUTIONS (EncodeVersions.validate self fs)
     ↔ ∃ text, fs !! EncodeVersions.filePath self = Some text
               ∧ text ≠ EncodeVersions.content self)
  ∧ ¬ (reported MISSING_NOTICE (EncodeVersions.validate self fs)
       ∧ reported OUTDATED_ATTRIBUTIONS (EncodeVersions.validate self fs))
  ∧ (∀ v, v ∈ ViolationsReport.violations (EncodeVersions.validate self fs)
          → Violation.type v ∈ [MISSING_NOTICE; OUTDATED_ATTRIBUTIONS]
          → Violation.fix_ v = Some (EncodeVersions.flushAttributions self)).
Proof.
  unfold reported. rewrite EncodeVersions_validate_spec.
  pose proof (license_checks_elem (EncodeVersions.allowedLicenses self)
                (EncodeVersions.attributions self)) as Hlic.
  set (checks := invalidLicense _ _ ++ noLicense _ ++ multiLicense _) in *.
  assert (∀ type, type ∈ Violation.type <$> checks
                  → type ∈ [INVALID_LICENSE; NO_LICENSE; MULTIPLE_LICENSE])
    as Hchecks.
  { intros type (v & -> & [Hv _]%Hlic)%list_elem_of_fmap. done. }
  rewrite !fmap_app, !elem_of_app.
  assert (MISSING_NOTICE ∈ Violation.type <$> checks → False) as Hno1.
  { intros Hv%Hchecks. elems Hv. }
  assert (OUTDATED_ATTRIBUTIONS ∈ Violation.type <$> checks → False) as Hno2.
  { intros Hv%Hchecks. elems Hv. }
  destruct (fs !! EncodeVersions.filePath self) as [text|] eqn:Hfile;
    [destruct (String.eqb_spec text (EncodeVersions.content self)) as [->|Hne]|].
  - split_and!.
    + split; [|done]. intros [Hv|Hv]; [elems Hv|by apply Hno1 in Hv].
    + split.
      * intros [Hv|Hv]; [elems Hv|by apply Hno2 in Hv].
      * by intros (? & [= <-] & ?).
    + intros [[Hv|Hv] _]; [elems Hv|by apply Hno1 in Hv].
    + intros v [Hv|[Hv _]%Hlic]%elem_of_app Htype; [elems Hv|].
      elems Htype; rewrite Htype in Hv; elems Hv.
  - split_and!.
    + split; [|done]. intros [Hv|Hv]; [elems Hv|by apply Hno1 in Hv].
    + split; [eauto|]. intros _. left. simpl. by apply list_elem_of_singleton.
    + intros [[Hv|Hv] _]; [elems Hv|by apply Hno1 in Hv].
    + intros v [Hv|[Hv _]%Hlic]%elem_of_app Htype; [elems Hv; by subst v|].
      elems Htype; rewrite Htype in Hv; elems Hv.
  - split_and!.
    + split; [done|]. intros _. left. simpl. by apply list_elem_of_singleton.
    + split; [|by intros (? & ? & ?)].
      intros [Hv|Hv]; [elems Hv|by apply Hno2 in Hv].
    + intros [_ [Hv|Hv]]; [elems Hv|by apply Hno2 in Hv].
    + intros v [Hv|[Hv _]%Hlic]%elem_of_app Htype; [elems Hv; by subst v|].
      elems Htype; rewrite Htype in Hv; elems Hv.
Qed.

Lemma append_length (s t : string) :
  String.length (s +:+ t) = String.length s + String.length t.
Proof.
  induction s as [|c s IH]; [done|]. rewrite append_cons. simpl. by rewrite IH.
Qed.

Lemma versions_sibling_ne (self : EncodeVersions.t) :
  EncodeVersions.filePath self ≠ versions_sibling self.
Proof.
  unfold versions_sibling. intros Heq.
  apply (f_equal String.length) in Heq. rewrite append_length in Heq.
  simpl in Heq. revert Heq.
  generalize (String.length (EncodeVersions.filePath self)). intros n Hn. lia.
Qed.

Lemma license_checks_nil allowedLicenses attributions :
  invalidLicense allowedLicenses attributions
  ++ noLicense attributions ++ multiLicense attributions = []
  ↔ ∀ a, a ∈ attributions → single_allowed_license allowedLicenses a.
Proof.
  unfold invalidLicense, noLicense, multiLicense, single_allowed_license.
  induction attributions as [|a attributions IH].
  { split; [|done]. by intros _ a ?%elem_of_nil. }
  cbn [List.filter].
  destruct (Attribution.licenses a) as [|first [|second more]] eqn:Hlic.
  - cbn [length]. rewrite bool_decide_eq_true_2 by done.
    rewrite bool_decide_eq_false_2 by lia. split.
    + intros Hnil. apply app_eq_nil in Hnil as [_ Hnil]. done.
    + intros Hall. destruct (Hall a) as (license & Hl & _); [left|]. congruence.
  - cbn [length]. rewrite (bool_decide_eq_false_2 (1 = 0)) by lia.
    rewrite (bool_decide_eq_false_2 (1 < 1)) by lia.
    destruct (decide (Js.toLowerCase first ∈ allowedLicenses)) as [Hin|Hout].
    + rewrite bool_decide_eq_true_2 by done. cbn [negb]. rewrite IH. split.
      * intros Hall a' [->|Ha']%elem_of_cons; [eauto|by apply Hall].
      * intros Hall a' Ha'. apply Hall. by right.
    + rewrite bool_decide_eq_false_2 by done. cbn [negb]. split; [done|].
      intros Hall. destruct (Hall a) as (license & Hl & Hin); [left|].
      congruence.
  - cbn [length]. rewrite bool_decide_eq_false_2 by lia.
    rewrite bool_decide_eq_true_2 by lia. split.
    + intros Hnil. apply app_eq_nil in Hnil as [_ Hnil].
      apply app_eq_nil in Hnil as [_ Hnil]. done.
    + intros Hall. destruct (Hall a) as (license & Hl & _); [left|]. congruence.
Qed.

(** X2. After [flushAttributions] the notice file holds the generated
    document, so [validate] reports neither a missing notice nor outdated
    attributions: its report is exactly the license checks, and it is empty
    when every attribution has exactly one allowed license. This needs no
    assumption on the paths. *)
Theorem validate_after_flushAttributions `{Runtime} (self : EncodeVersions.t)
    (fs : gmap string string) :
  EncodeVersions.flushAttributions self fs !! EncodeVersions.filePath self
  = Some (EncodeVersions.content self)
  ∧ ViolationsReport.violations
      (EncodeVersions.validate self (EncodeVersions.flushAttributions self fs))
    = invalidLicense (EncodeVersions.allowedLicenses self)
                     (EncodeVersions.attributions self)
      ++ noLicense (EncodeVersions.attributions self)
      ++ multiLicense (EncodeVersions.attributions self)
  ∧ (ViolationsReport.violations
       (EncodeVersions.validate self (EncodeVersions.flushAttributions self fs))
     = []
     ↔ ∀ a, a ∈ EncodeVersions.attributions self
            → single_allowed_license (EncodeVersions.allowedLicenses self) a).
Proof.
  assert (EncodeVersions.flushAttributions self fs !! EncodeVersions.filePath self
          = Some (EncodeVersions.content self)) as Hfile.
  { unfold EncodeVersions.flushAttributions.
    destruct (negb (EncodeVersions.encodeVersions self)).
    - rewrite lookup_insert_ne by (symmetry; apply versions_sibling_ne).
      apply lookup_insert_eq.
    - apply lookup_insert_eq. }
  assert (ViolationsReport.violations
            (EncodeVersions.validate self (EncodeVersions.flushAttributions self fs))
          = invalidLicense (EncodeVersions.allowedLicenses self)
                           (EncodeVersions.attributions self)
            ++ noLicense (EncodeVersions.attributions self)
            ++ multiLicense (EncodeVersions.attributions self)) as Hreport.
  { by rewrite EncodeVersions_validate_spec, Hfile, String.eqb_refl. }
  split_and!; [done..|]. rewrite Hreport. apply license_checks_nil.
Qed.

(** X3. [flushAttributions] writes the notice file and, only when the
    versions are not encoded in the document, the file beside it whose name
    ends in .versions.json; it changes no other file, and running it a second
    time changes nothing. *)
Theorem flushAttributions_writes `{Runtime} (self : EncodeVersions.t)
    (fs : gmap string string) :
  (EncodeVersions.encodeVersions self = false
   → EncodeVersions.flushAttributions self fs !! versions_sibling self
     = Some (EncodeVersions.versions self))
  ∧ (EncodeVersions.encodeVersions self = true
     → EncodeVersions.flushAttributions self fs !! versions_sibling self
       = fs !! versions_sibling self)
  ∧ (∀ file, file ≠ EncodeVersions.filePath self
             → file ≠ versions_sibling self
             → EncodeVersions.flushAttributions self fs !! file = fs !! file)
  ∧ EncodeVersions.flushAttributions self
      (EncodeVersions.flushAttributions self fs)
    = EncodeVersions.flushAttributions self fs.
Proof.
  pose proof (versions_sibling_ne self) as Hne.
  unfold EncodeVersions.flushAttributions.
  fold (versions_sibling self).
  destruct (EncodeVersions.encodeVersions self); cbn [negb]; split_and!.
  - done.
  - intros _. by rewrite lookup_insert_ne.
  - intros file Hfile _. by rewrite lookup_insert_ne.
  - by rewrite insert_insert_eq.
  - intros _. apply lookup_insert_eq.
  - done.
  - intros file Hfile Hsibling. by rewrite !lookup_insert_ne.
  - apply map_eq. intros file. rewrite !lookup_insert.
    repeat case_decide; congruence.
Qed.

(** ** The licenses and versions files of the later revision *)

(** X4. [flush] writes [licensesPath] and, when it is set, [versionsPath],
    and no other file; running it a second time changes nothing, whatever
    the two paths are. *)
Theorem flush_writes_two_files `{Runtime} (self : VersionsPath.t)
    (fs : gmap string string) :
  VersionsPath.flush self (VersionsPath.flush self fs)
  = VersionsPath.flush self fs
  ∧ (∀ file, file ≠ VersionsPath.licensesPath self
             → when_truthy (VersionsPath.versionsPath self) ≠ Some file
             → VersionsPath.flush self fs !! file = fs !! file)
  ∧ (∀ p, when_truthy (VersionsPath.versionsPath self) = Some p
          → VersionsPath.flush self fs !! p = Some (VersionsPath.versions self))
  ∧ (when_truthy (VersionsPath.versionsPath self)
     ≠ Some (VersionsPath.licensesPath self)
     → VersionsPath.flush self fs !! VersionsPath.licensesPath self
       = Some (VersionsPath.licenses self)).
Proof.
  unfold VersionsPath.flush.
  destruct (when_truthy (VersionsPath.versionsPath self)) as [p|]; split_and!.
  - apply map_eq. intros file. rewrite !lookup_insert.
    repeat case_decide; congruence.
  - intros file Hl Hv. rewrite !lookup_insert.
    repeat case_decide; congruence.
  - intros ? [= <-]. apply lookup_insert_eq.
  - intros Hne. rewrite lookup_insert_ne by congruence. apply lookup_insert_eq.
  - by rewrite insert_insert_eq.
  - intros file Hl _. by rewrite lookup_insert_ne.
  - done.
  - intros _. apply lookup_insert_eq.
Qed.

(** X5. [validate] returns an empty report exactly when the licenses file
    holds the generated document, the versions file (when one is
    configured) holds the generated versions, and every attribution has
    exactly one license, which is in the allow-list. *)
Theorem validate_passes_iff `{Runtime} (self : VersionsPath.t)
    (fs : gmap string string) :
  ViolationsReport.violations (VersionsPath.validate self fs) = []
  ↔ up_to_date self fs
    ∧ ∀ a, a ∈ VersionsPath.attributions self
           → single_allowed_license (VersionsPath.allowedLicenses self) a.
Proof.
  rewrite VersionsPath_validate_spec, <- license_checks_nil.
  unfold up_to_date. split.
  - intros (Hl & (Hv & Hchecks)%app_eq_nil)%app_eq_nil.
    split; [|done]. split.
    + destruct (fs !! VersionsPath.licensesPath self) as [text|]; [|done].
      destruct (String.eqb_spec text (VersionsPath.licenses self)); by subst.
    + intros p Hp. rewrite Hp in Hv.
      destruct (fs !! p) as [text|]; [|done].
      destruct (String.eqb_spec text (VersionsPath.versions self)); by subst.
  - intros [[Hl Hv] ->]. rewrite Hl, String.eqb_refl.
    destruct (when_truthy (VersionsPath.versionsPath self)) as [p|]; [|done].
    by rewrite (Hv p eq_refl), String.eqb_refl.
Qed.

(** ** The versions index *)

Lemma record_versions_get versions l versions' name :
  for_of record_version versions l = Ok versions'
  → Js.get versions' name
    = match versions_of name l with
      | [] => Js.get versions name
      | _ :: _ => Some (default [] (Js.get versions name) ++ versions_of name l)
      end.
Proof.
  revert versions. induction l as [|a l IH]; intros versions; cbn [for_of].
  { by intros [= <-]. }
  destruct (record_version versions a) as [versions1|e] eqn:Ha; [|done].
  apply record_version_Ok in Ha as [-> _]. intros Hrest.
  rewrite (IH _ Hrest). unfold versions_of. cbn [List.filter].
  set (rest := Attribution.packageVersion <$> List.filter _ l).
  destruct (decide (Attribution.packageName a = name)) as [<-|Hne].
  - rewrite bool_decide_eq_true_2 by done.
    rewrite get_set_eq. rewrite fmap_cons. fold rest. cbn [default].
    destruct rest; [done|]. unfold id. by rewrite <- (assoc_L (++)).
  - rewrite bool_decide_eq_false_2 by done.
    by rewrite get_set_ne.
Qed.

Lemma set_keys {V} (o : Js.object V) k v :
  (Js.set o k v).*1 = if decide (k ∈ o.*1) then o.*1 else o.*1 ++ [k].
Proof.
  induction o as [|[k' v'] o IH]; cbn [Js.set fmap list_fmap fst].
  - rewrite decide_False by (by intros ?%elem_of_nil). done.
  - destruct (decide (k' = k)) as [->|Hne]; cbn [fmap list_fmap fst].
    + rewrite decide_True by left. done.
    + change (list_fmap _ _ fst ?l) with (l.*1). rewrite IH.
      destruct (decide (k ∈ o.*1)) as [Hin|Hout].
      * rewrite decide_True by (by right). done.
      * rewrite decide_False; [done|].
        intros [?|?]%elem_of_cons; congruence.
Qed.

Lemma record_versions_keys versions l versions' :
  for_of record_version versions l = Ok versions'
  → NoDup versions.*1 → NoDup versions'.*1.
Proof.
  revert versions. induction l as [|a l IH]; intros versions; cbn [for_of].
  { by intros [= <-]. }
  destruct (record_version versions a) as [versions1|e] eqn:Ha; [|done].
  apply record_version_Ok in Ha as [-> _]. intros Hrest Hnodup.
  apply (IH _ Hrest). rewrite set_keys.
  case_decide; [done|]. apply NoDup_app. split_and!; [done| |apply NoDup_singleton].
  intros k Hk ->%list_elem_of_singleton. done.
Qed.

(** X6. When no package has the name of a property of [Object.prototype],
    the loop of [render] builds the versions index, and the index has one
    entry per package name that has an attribution, and none for any other
    name: the entry lists the versions of all attributions of that name, in
    the order of their blocks, neither sorted nor freed of duplicates. No
    name is a key twice. *)
Theorem versions_index_lists_versions `{Runtime}
    (attributions : list Attribution.t) (name : string) :
  plain_names attributions →
  ∃ index,
    versions_index attributions = Ok index
    ∧ Js.get index name
      = match versions_of name (ordered attributions) with
        | [] => None
        | version :: versions => Some (version :: versions)
        end
    ∧ (versions_of name (ordered attributions) = []
       ↔ ∀ a, a ∈ attributions → Attribution.packageName a ≠ name)
    ∧ NoDup index.*1.
Proof.
  intros [index Hindex]%versions_index_plain. exists index.
  split; [done|]. unfold versions_index in Hindex. split_and!.
  - rewrite (record_versions_get _ _ _ _ Hindex).
    by destruct (versions_of name _).
  - unfold versions_of. split.
    + intros Hnil%fmap_nil_inv a Ha Hname.
      rewrite <- (ordered_perm attributions), list_elem_of_In in Ha.
      assert (In a (List.filter
                      (λ a0, bool_decide (Attribution.packageName a0 = name))
                      (ordered attributions))) as Hin.
      { apply filter_In. split; [done|]. by apply bool_decide_eq_true. }
      rewrite Hnil in Hin. done.
    + intros Hall.
      destruct (List.filter _ (ordered attributions)) as [|a rest] eqn:Hf;
        [done|].
      assert (In a (a :: rest)) as Hin by (by left).
      rewrite <- Hf in Hin. apply filter_In in Hin as [Hin Hname].
      apply bool_decide_eq_true in Hname.
      rewrite <- list_elem_of_In, (ordered_perm attributions) in Hin.
      by destruct (Hall a Hin).
  - apply (record_versions_keys _ _ _ Hindex). constructor.
Qed.

Lemma versions_index_lists_versions_witness :
  plain_names [attribution_B; attribution_a]
  ∧ ∃ index,
      versions_index (H:=node) [attribution_B; attribution_a] = Ok index
      ∧ Js.get index "a" = Some ["1.0.0"]
      ∧ NoDup index.*1.
Proof.
  assert (plain_names [attribution_B; attribution_a]) as Hplain.
  { apply plain_names_check. vm_compute; reflexivity. }
  split; [exact Hplain|].
  destruct (versions_index_lists_versions (H:=node)
              [attribution_B; attribution_a] "a" Hplain)
    as (index & Hindex & Hget & _ & Hnodup).
  exists index. split; [exact Hindex|]. split; [|exact Hnodup].
  rewrite Hget. vm_compute; reflexivity.
Defined.

(** ** The document does not depend on the order of the attributions *)

(** X7. [render] sorts the attributions "so the file doesn't change due to
    ordering issues": when [localeCompare] is consistent and no two different
    attributions have names that compare equal, two lists with the same
    attributions in different orders give the same document and the same
    versions JSON. *)
Theorem render_ignores_input_order `{Runtime} (packageName : string)
    (encodeVersions : bool) (l1 l2 : list Attribution.t) :
  consistent localeCompare →
  (∀ a1 a2, a1 ∈ l1 → a2 ∈ l1 → fqn_le a1 a2 → fqn_le a2 a1 → a1 = a2) →
  l1 ≡ₚ l2 →
  render packageName encodeVersions l1 = render packageName encodeVersions l2.
Proof.
  intros Hcmp Hasym Hperm.
  assert (ordered l1 = ordered l2) as Hordered.
  { apply (StronglySorted_unique_strong fqn_le).
    - intros a1 a2 Ha1 Ha2. apply Hasym.
      + by rewrite <- (ordered_perm l1).
      + by rewrite Hperm, <- (ordered_perm l2).
    - by apply ordered_sorted.
    - by apply ordered_sorted.
    - by rewrite !ordered_perm. }
  rewrite !render_spec. unfold versions_index. rewrite Hordered.
  destruct l1 as [|a1 l1], l2 as [|a2 l2]; try done.
  - by apply Permutation_nil_cons in Hperm.
  - symmetry in Hperm. by apply Permutation_nil_cons in Hperm.
Qed.

Lemma render_ignores_input_order_witness :
  consistent caseless_compare
  ∧ (∀ a1 a2, a1 ∈ [attribution_B; attribution_a]
              → a2 ∈ [attribution_B; attribution_a]
              → fqn_le (H:=node) a1 a2 → fqn_le (H:=node) a2 a1 → a1 = a2)
  ∧ [attribution_B; attribution_a] ≡ₚ [attribution_a; attribution_B]
  ∧ render (H:=node) "consumer" true [attribution_B; attribution_a]
    = render (H:=node) "consumer" true [attribution_a; attribution_B].
Proof.
  assert (∀ a1 a2, a1 ∈ [attribution_B; attribution_a]
                   → a2 ∈ [attribution_B; attribution_a]
                   → fqn_le (H:=node) a1 a2 → fqn_le (H:=node) a2 a1 → a1 = a2)
    as Hasym.
  { intros a1 a2 H1 H2. elems H1; elems H2; subst; try done;
      unfold fqn_le; vm_compute; intros ? ?; congruence. }
  split; [exact caseless_compare_consistent|]. split; [exact Hasym|].
  split; [apply Permutation_swap|].
  apply (render_ignores_input_order (H:=node) "consumer" true
           [attribution_B; attribution_a] [attribution_a; attribution_B]).
  - exact caseless_compare_consistent.
  - exact Hasym.
  - apply Permutation_swap.
Defined.

(** ** The end of the document and its line endings *)

(** X8. For at least one attribution, and no package with the name of a
    property of [Object.prototype], [render] returns a document that ends
    with the separator, that is with a line feed, a line of sixteen dashes
    and a line feed. *)
Theorem document_ends_with_separator `{Runtime} (packageName : string)
    (encodeVersions : bool) (attributions : list Attribution.t) :
  attributions ≠ [] →
  plain_names attributions →
  ∃ rendered start,
    render packageName encodeVersions attributions = Ok rendered
    ∧ Rendered.licenses rendered
      = start +:+ Js.LF +:+ "----------------" +:+ Js.LF.
Proof.
  intros Hne Hplain.
  destruct (render_plain packageName encodeVersions attributions Hplain)
    as (index & _ & Hrender).
  eexists _. cut (∃ start,
    Js.join Js.LF
      (Js.replace_crlf <$>
         (match attributions with
          | [] => []
          | _ :: _ => [first_line packageName; ""]
          end) ++ ordered attributions ≫= block encodeVersions)
    = start +:+ ATTRIBUTION_SEPARATOR).
  { intros [start Hstart]. exists start. split; [exact Hrender|exact Hstart]. }
  clear Hrender index.
  assert (ordered attributions ≠ []) as Hordered.
  { intros Hnil. pose proof (ordered_perm attributions) as Hperm.
    rewrite Hnil in Hperm. by apply Permutation_nil in Hperm. }
  destruct (ordered attributions) as [|a0 rest0 _] using rev_ind; [done|].
  clear Hordered.
  match goal with
  | |- ∃ _, Js.join _ ?lines = _ =>
      assert (∃ before, lines = before ++ [ATTRIBUTION_SEPARATOR])
        as [before ->]
  end.
  { eexists. rewrite bind_app. cbn [mbind list_bind mjoin fmap list_fmap].
    unfold block at 2. rewrite (right_id_L [] (++)).
    rewrite (app_comm_cons _ [ATTRIBUTION_SEPARATOR]), !(assoc_L (++)).
    rewrite fmap_app. cbn [fmap list_fmap].
    change (Js.replace_crlf ATTRIBUTION_SEPARATOR)
      with ATTRIBUTION_SEPARATOR. reflexivity. }
  destruct (join_middle Js.LF before ATTRIBUTION_SEPARATOR [])
    as (start & right & -> & _ & Hright).
  exists start. by rewrite Hright, append_empty_r.
Qed.

Lemma document_ends_with_separator_witness :
  [attribution_B; attribution_a] ≠ []
  ∧ plain_names [attribution_B; attribution_a]
  ∧ ∃ rendered start,
      render (H:=node) "consumer" true [attribution_B; attribution_a]
      = Ok rendered
      ∧ Rendered.licenses rendered
        = start +:+ Js.LF +:+ "----------------" +:+ Js.LF.
Proof.
  assert (plain_names [attribution_B; attribution_a]) as Hplain.
  { apply plain_names_check. vm_compute; reflexivity. }
  split; [done|]. split; [exact Hplain|].
  by apply (document_ends_with_separator (H:=node) "consumer" true
              [attribution_B; attribution_a]).
Defined.

Lemma CR_only_before_LF_app s t :
  CR_only_before_LF s → CR_only_before_LF t → CR_only_before_LF (s +:+ t).
Proof.
  intros Hs Ht. induction s as [|c s IH]; [done|].
  rewrite append_cons. cbn [CR_only_before_LF] in *.
  apply andb_True in Hs as [Hc Hs]. apply andb_True. split; [|by apply IH].
  apply orb_True in Hc as [Hc|Hc]; apply orb_True; [by left|right].
  destruct s as [|d s]; [done|]. by rewrite append_cons.
Qed.

Lemma replace_crlf_removes_CR s :
  CR_only_before_LF s → has_CR (Js.replace_crlf s) = false.
Proof.
  induction s as [|c s IH]; [done|]. cbn [CR_only_before_LF].
  intros [Hc Hs]%andb_True. specialize (IH Hs).
  destruct (Ascii.eqb c "013"%char) eqn:Hcr.
  - apply Ascii.eqb_eq in Hcr as ->. destruct s as [|d rest]; [done|].
    cbn [negb orb starts_with_LF] in Hc. apply Is_true_true in Hc.
    apply Ascii.eqb_eq in Hc as ->. rewrite replace_crlf_pair.
    rewrite replace_crlf_other in IH by (by left).
    exact IH.
  - rewrite replace_crlf_other
      by (left; intros ->; by rewrite Ascii.eqb_refl in Hcr).
    cbn [has_CR]. by rewrite Hcr, IH.
Qed.

Lemma has_CR_app s t : has_CR (s +:+ t) = has_CR s || has_CR t.
Proof.
  induction s as [|c s IH]; [done|].
  rewrite append_cons. cbn [has_CR]. by rewrite IH, orb_assoc.
Qed.

Lemma has_CR_join lines :
  Forall (λ line, has_CR line = false) lines
  → has_CR (Js.join Js.LF lines) = false.
Proof.
  induction 1 as [|line lines Hline Hlines IH]; [done|].
  destruct lines as [|line' lines]; [done|].
  by rewrite join_cons, !has_CR_app, Hline, IH.
Qed.

(** X9. [render] standardizes the line endings to LF: when the name of
    the package and the names, URL, first license and texts of every
    attribution contain a carriage return only directly before a line feed,
    and no package has the name of a property of [Object.prototype],
    [render] returns a document that contains no carriage return. *)
Theorem render_standardizes_line_endings `{Runtime} (packageName : string)
    (encodeVersions : bool) (attributions : list Attribution.t) :
  CR_only_before_LF packageName →
  (∀ a, a ∈ attributions → CR_only_before_LF_in a) →
  plain_names attributions →
  ∃ rendered,
    render packageName encodeVersions attributions = Ok rendered
    ∧ has_CR (Rendered.licenses rendered) = false.
Proof.
  intros Hname Hattributions Hplain.
  destruct (render_plain packageName encodeVersions attributions Hplain)
    as (index & _ & Hrender).
  eexists. split; [exact Hrender|]. cbn [Rendered.licenses].
  apply has_CR_join, Forall_fmap, Forall_app. split.
  - destruct attributions; [done|]. repeat constructor.
    cbn [compose]. apply replace_crlf_removes_CR.
    unfold first_line. by repeat apply CR_only_before_LF_app.
  - apply Forall_bind, Forall_forall. intros a Ha.
    rewrite (ordered_perm attributions) in Ha.
    specialize (Hattributions a Ha). unfold CR_only_before_LF_in in Hattributions.
    repeat (apply andb_True in Hattributions as [Hattributions ?]).
    unfold block. constructor; [|apply Forall_app; split].
    + cbn [compose]. apply replace_crlf_removes_CR. unfold block_header.
      destruct encodeVersions; by repeat apply CR_only_before_LF_app.
    + unfold block_body, when_truthy.
      destruct (Js.truthy (Attribution.noticeText a)),
        (Attribution.noticeText a) as [noticeText|];
        try (repeat constructor; by apply replace_crlf_removes_CR);
        destruct (Js.truthy (Attribution.licenseText a)),
          (Attribution.licenseText a) as [licenseText|];
        repeat constructor; by apply replace_crlf_removes_CR.
    + by repeat constructor.
Qed.

Lemma render_standardizes_line_endings_witness :
  Attribution.licenseText attribution_MIT
  = Some ("MIT License" +:+ Js.CRLF +:+ "Copyright")
  ∧ CR_only_before_LF "consumer"
  ∧ (∀ a, a ∈ [attribution_MIT] → CR_only_before_LF_in a)
  ∧ plain_names [attribution_MIT]
  ∧ ∃ rendered,
      render (H:=node) "consumer" true [attribution_MIT] = Ok rendered
      ∧ has_CR (Rendered.licenses rendered) = false.
Proof.
  assert (∀ a, a ∈ [attribution_MIT] → CR_only_before_LF_in a) as Hattributions.
  { intros a Ha. elems Ha; subst; by vm_compute. }
  assert (plain_names [attribution_MIT]) as Hplain.
  { apply plain_names_check. vm_compute; reflexivity. }
  split; [vm_compute; reflexivity|].
  split; [by vm_compute|]. split; [exact Hattributions|].
  split; [exact Hplain|].
  apply (render_standardizes_line_endings (H:=node) "consumer" true [attribution_MIT]);
    [by vm_compute|exact Hattributions|exact Hplain].
Defined.

(** ** Packages named like a property of [Object.prototype] *)

(** X17. [render] returns a document exactly when no attribution is for a
    package with the name of a property of [Object.prototype] (constructor,
    toString, __proto__ and the like). Otherwise the read of
    [versions[attr.packageName]] finds the inherited value instead of an
    array of versions, and [render] throws the type error of the call of
    its missing [push]; it throws nothing else. *)
Theorem render_returns_iff `{Runtime} (packageName : string)
    (encodeVersions : bool) (attributions : list Attribution.t) :
  ((∃ rendered, render packageName encodeVersions attributions = Ok rendered)
   ↔ plain_names attributions)
  ∧ (∀ e, render packageName encodeVersions attributions = Throw e
          → e = TypeError "versionsInUse.push is not a function"
            ∧ ∃ a, a ∈ attributions
                   ∧ Attribution.packageName a ∈ Js.Object_prototype).
Proof.
  split.
  - split.
    + intros [rendered (index & Hindex & _)%render_Ok].
      by apply versions_index_Ok in Hindex.
    + intros (index & _ & Hrender)%(render_plain packageName encodeVersions).
      eauto.
  - intros e. rewrite render_spec.
    destruct (versions_index attributions) as [index|e'] eqn:Hindex; [done|].
    intros [= <-].
    apply record_versions_Throw in Hindex as (-> & a & Ha & Hname).
    split; [done|]. exists a. split; [|done].
    by rewrite <- (ordered_perm attributions).
Qed.

(** ** The attributions that [attribute] returns *)

(** X10. When [attribute] returns, it returns one attribution per
    dependency, in the order of the dependencies. The attribution of a
    dependency has its name and version, the identifier name@version, the
    URL of the package on npmjs.com (of that version when the versions are
    encoded) and the licenses of the entry that the probe has for the
    dependency: a string gives a list of one, an array is taken as it is,
    and no value or the empty string gives the empty list. *)
Theorem attribute_returns_one_attribution_per_dependency (w : World)
    (encodeVersions : bool) (dependenciesRoot : string)
    (dependencies : list Package.t) (log log' : ProbeLog)
    (attributions : list Attribution.t) :
  attribute w encodeVersions dependenciesRoot dependencies log
  = (log', Ok attributions) →
  ∃ infos,
    (dependencies ≠ []
     → probe w dependenciesRoot (pkg <$> dependencies) = Some infos)
    ∧ Forall2
        (λ d a,
           Attribution.packageFqn a
           = Package.name d +:+ "@" +:+ Package.version d
           ∧ Attribution.packageName a = Package.name d
           ∧ Attribution.packageVersion a = Package.version d
           ∧ Attribution.url a
             = "https://www.npmjs.com/package/" +:+ Package.name d
               +:+ (if encodeVersions then "/v/" +:+ Package.version d else "")
           ∧ ∃ info,
               located_info w infos d = Some info
               ∧ Attribution.licenses a
                 = match ModuleInfo.licenses info with
                   | Some (ModuleInfo.One "") | None => []
                   | Some (ModuleInfo.One license) => [license]
                   | Some (ModuleInfo.Many all) => all
                   end)
        dependencies attributions.
Proof.
  intros [(-> & -> & _)|(Hne & infos & Hprobe & Hall & _)]%attribute_Ok.
  { exists ∅. split; [done|constructor]. }
  exists infos. split; [done|].
  eapply Forall2_impl; [exact Hall|].
  intros d a (info & Hinfo & _ & ->). cbn.
  repeat split; try done.
  - unfold package_url. destruct encodeVersions; [done|].
    by rewrite append_empty_r.
  - exists info. split; [done|]. unfold declared_licenses.
    by destruct (ModuleInfo.licenses info) as [[[|c s]|all]|].
Qed.

Lemma attribute_returns_one_attribution_per_dependency_witness :
  ∃ log' a1 a2,
    attribute (consumer_world (Some (ModuleInfo.Many ["MIT"; "ISC"]))) true
              "/consumer/node_modules" [dep1; dep2] []
    = (log', Ok [a1; a2])
    ∧ Attribution.url a1 = "https://www.npmjs.com/package/dep1/v/0.0.0"
    ∧ Attribution.packageFqn a2 = "dep2@0.0.0".
Proof.
  eexists _, _, _. split; [vm_compute; reflexivity|].
  destruct (attribute_returns_one_attribution_per_dependency
              (consumer_world (Some (ModuleInfo.Many ["MIT"; "ISC"]))) true
              "/consumer/node_modules" [dep1; dep2] [] _ _
              ltac:(vm_compute; reflexivity))
    as (infos & _ & Hall).
  apply Forall2_cons in Hall as [(_ & _ & _ & Hurl & _) Hall].
  apply Forall2_cons in Hall as [(Hfqn & _) _].
  split; [exact Hurl|exact Hfqn].
Defined.

(** X11. [attribute] returns - it throws otherwise - exactly when there
    is no dependency, or the probe run in [dependenciesRoot] succeeds and,
    for every dependency, that run or the run in the directory of the
    dependency has an entry for it, and the notice file and the license
    file (other than a markdown file) that the entry names exist. *)
Theorem attribute_returns_iff (w : World) (encodeVersions : bool)
    (dependenciesRoot : string) (dependencies : list Package.t)
    (log : ProbeLog) :
  (∃ log' attributions,
     attribute w encodeVersions dependenciesRoot dependencies log
     = (log', Ok attributions))
  ↔ dependencies = []
    ∨ ∃ infos,
        probe w dependenciesRoot (pkg <$> dependencies) = Some infos
        ∧ ∀ d, d ∈ dependencies
               → ∃ info, located_info w infos d = Some info ∧ readable w info.
Proof.
  split.
  - intros (log' & attributions
            & [(-> & _)|(_ & infos & Hprobe & Hall & _)]%attribute_Ok);
      [by left|right].
    exists infos. split; [done|]. intros d Hd.
    destruct (Forall2_elem_of_l _ _ _ _ Hall Hd)
      as (a & _ & info & Hinfo & Hreadable & _).
    by exists info.
  - intros [->|(infos & Hprobe & Hall)]; [by exists log, []|].
    destruct dependencies as [|d0 rest]; [by exists log, []|].
    destruct (for_each_located w encodeVersions infos (d0 :: rest)
                (log ++ [(dependenciesRoot, pkg <$> d0 :: rest)]) Hall)
      as (attributions & Hloop).
    eexists _, attributions. unfold attribute.
    erewrite bind_eq; [exact Hloop|]. unfold fetchInfos. by rewrite Hprobe.
Qed.

Lemma locate_located w infos dep info log :
  located_info w infos dep = Some info
  → match infos !! pkg dep with
    | Some info => ret (Some info)
    | None =>
        let* own := fetchInfos w (Package.path dep) [pkg dep] in
        ret (own !! pkg dep)
    end log = (log ++ fallback_calls infos dep, Ok (Some info)).
Proof.
  unfold located_info, fallback_calls. intros Hinfo.
  destruct (infos !! pkg dep) as [info'|].
  - simplify_eq. unfold ret. by rewrite (right_id_L [] (++)).
  - unfold bind, fetchInfos, ret.
    destruct (probe w (Package.path dep) [pkg dep]) as [own|]; [|done].
    simpl in Hinfo. by rewrite Hinfo.
Qed.

Lemma read_if_set_missing w file f log :
  when_truthy file = Some f
  → files w !! f = None
  → read_if_set w file log = (log, Throw (ENOENT f)).
Proof.
  intros Hfile Hmissing. unfold read_if_set, readFileSync.
  rewrite Hfile. unfold bind. by rewrite Hmissing.
Qed.

(** X12. A file that the probe names and that does not exist makes
    [attribute] throw the error of the read, after the probe runs for the
    dependencies up to that one: for the first dependency with such a file,
    the error is about the notice file when that is missing, and about the
    license file when the notice file is not named or exists, the license
    file is not a markdown file, and it is missing. *)
Theorem attribute_throws_on_missing_file (w : World) (encodeVersions : bool)
    (dependenciesRoot : string) (before after : list Package.t)
    (d : Package.t) (log : ProbeLog) (infos : gmap string ModuleInfo.t)
    (info : ModuleInfo.t) (file : string) :
  probe w dependenciesRoot (pkg <$> before ++ d :: after) = Some infos →
  (∀ d', d' ∈ before
         → ∃ info', located_info w infos d' = Some info' ∧ readable w info') →
  located_info w infos d = Some info →
  files w !! file = None →
  when_truthy (ModuleInfo.noticeFile info) = Some file
  ∨ ((∀ notice, when_truthy (ModuleInfo.noticeFile info) = Some notice
                → is_Some (files w !! notice))
     ∧ license_file info = Some file) →
  attribute w encodeVersions dependenciesRoot (before ++ d :: after) log
  = (log ++ (dependenciesRoot, pkg <$> before ++ d :: after)
         :: (before ++ [d]) ≫= fallback_calls infos,
     Throw (ENOENT file)).
Proof.
  intros Hprobe Hbefore Hinfo Hmissing Hfile. unfold attribute.
  destruct (before ++ d :: after) as [|d0 rest] eqn:Hdeps;
    [by destruct before|].
  rewrite <- Hdeps in *. clear d0 rest Hdeps.
  erewrite bind_eq by (unfold fetchInfos; by rewrite Hprobe).
  destruct (for_each_located w encodeVersions infos before
              (log ++ [(dependenciesRoot, pkg <$> before ++ d :: after)])
              Hbefore) as (attributions & Hloop).
  apply (for_each_throw _ _ _ _ _ _ _ _ _ Hloop).
  replace (log ++ (dependenciesRoot, pkg <$> before ++ d :: after)
               :: (before ++ [d]) ≫= fallback_calls infos)
    with ((log ++ [(dependenciesRoot, pkg <$> before ++ d :: after)])
          ++ (before ≫= fallback_calls infos) ++ fallback_calls infos d).
  2: { rewrite bind_app, bind_cons. cbn [mbind list_bind mjoin fmap list_fmap].
       by rewrite (right_id_L [] (++)), <- !(assoc_L (++)). }
  unfold attribute_dependency.
  erewrite bind_eq by (by apply locate_located).
  cbv beta iota. destruct Hfile as [Hnotice|[Hnotice Hlicense]].
  - unfold bind at 1.
    rewrite (read_if_set_missing _ _ file) by done.
    by rewrite !(assoc_L (++)).
  - erewrite bind_eq by (by apply read_if_set_readable).
    unfold bind at 1.
    rewrite (read_if_set_missing _ _ file); [|by rewrite license_file_alt|done].
    by rewrite !(assoc_L (++)).
Qed.

Lemma attribute_throws_on_missing_file_witness :
  attribute consumer_world_without_files false
            "/consumer/node_modules" [dep1; dep2] []
  = ([("/consumer/node_modules", ["dep1@0.0.0"; "dep2@0.0.0"])],
     Throw (ENOENT "/consumer/node_modules/dep1/LICENSE")).
Proof.
  refine (eq_trans
            (attribute_throws_on_missing_file consumer_world_without_files
               false "/consumer/node_modules" [] [dep2] dep1 []
               {[ "dep1@0.0.0" := dep1_info (Some (ModuleInfo.One "MIT")) ]}
               (dep1_info (Some (ModuleInfo.One "MIT")))
               "/consumer/node_modules/dep1/LICENSE" _ _ _ _ _) _).
  - vm_compute; reflexivity.
  - by intros d' ?%elem_of_nil.
  - vm_compute; reflexivity.
  - vm_compute; reflexivity.
  - right. split; [|vm_compute; reflexivity].
    intros notice Hnotice. vm_compute in Hnotice. discriminate.
  - vm_compute; reflexivity.
Defined.

(** ** The exclude pattern *)

(** X13. The constructor compiles the exclude pattern when it tests a
    dependency: a pattern that does not compile makes it throw the syntax
    error before the probe is run when there is a dependency, and is not
    noticed when there is none. *)
Theorem invalid_exclude_pattern `{Runtime} (w : World)
    (props : EncodeVersions.AttributionsProps.t) (log : ProbeLog)
    (pattern : string) :
  when_truthy (EncodeVersions.AttributionsProps.exclude props) = Some pattern →
  (∀ name, RegExp_test pattern name = None) →
  match EncodeVersions.AttributionsProps.dependencies props with
  | [] =>
      ∃ self, EncodeVersions.new w props log = (log, Ok self)
              ∧ EncodeVersions.attributions self = []
  | _ :: _ =>
      EncodeVersions.new w props log = (log, Throw (SyntaxError pattern))
  end.
Proof.
  intros Hexclude Hinvalid. unfold EncodeVersions.new.
  destruct (EncodeVersions.AttributionsProps.dependencies props) as [|d rest].
  - eexists. by split.
  - cbn [filter_array]. unfold not_excluded at 1.
    rewrite Hexclude, Hinvalid. done.
Qed.

Lemma invalid_exclude_pattern_witness :
  EncodeVersions.new (H:=node_checked) (consumer_world None)
    (consumer_props_v1 ["MIT"] (Some "(") None) []
  = ([], Throw (SyntaxError "(")).
Proof.
  apply (invalid_exclude_pattern (H:=node_checked) (consumer_world None)
           (consumer_props_v1 ["MIT"] (Some "(") None) [] "(").
  - vm_compute; reflexivity.
  - intros name. vm_compute; reflexivity.
Defined.

(** ** The arguments of the command line *)

Lemma split_colon_free s : colon_free s → split ":" s = (s, []).
Proof.
  induction s as [|c s IH]; [done|]. cbn [colon_free split].
  intros [Hc Hs]%andb_True. rewrite (IH Hs).
  by destruct (Ascii.eqb c ":").
Qed.

Lemma split_at_first_colon name rest :
  colon_free name
  → split ":" (name +:+ ":" +:+ rest)
    = (name, (split ":" rest).1 :: (split ":" rest).2).
Proof.
  induction name as [|c name IH].
  - intros _. change ("" +:+ ":" +:+ rest) with (String ":" rest).
    cbn [split]. by destruct (split ":" rest).
  - cbn [colon_free]. intros [Hc Hname]%andb_True.
    rewrite append_cons. cbn [split]. rewrite (IH Hname).
    by destruct (Ascii.eqb c ":").
Qed.

Lemma argument_name_type name type :
  colon_free name → colon_free type
  → argument_name (argument (name, type)) = name
    ∧ argument_type (argument (name, type)) = Some type.
Proof.
  intros Hname Htype. unfold argument_name, argument_type, argument.
  cbn [fst snd]. rewrite split_at_first_colon by done.
  by rewrite split_colon_free.
Qed.

Lemma externals_supported optionalExternals runtimeExternals l :
  (∀ p, p ∈ l → colon_free p.1 ∧ (p.2 = "optional" ∨ p.2 = "runtime"))
  → for_of externals_step (optionalExternals, runtimeExternals)
           (a_string <$> (argument <$> l))
    = Ok (optionalExternals ++ names_of_type "optional" l,
          runtimeExternals ++ names_of_type "runtime" l).
Proof.
  revert optionalExternals runtimeExternals.
  induction l as [|[name type] l IH]; intros optionalExternals runtimeExternals Hl.
  - unfold names_of_type. cbn. by rewrite !(right_id_L [] (++)).
  - destruct (Hl (name, type)) as [Hname Htype]; [left|]. cbn [fst snd] in *.
    assert (colon_free type) as Hfree by (by destruct Htype as [->| ->]).
    destruct (argument_name_type name type Hname Hfree) as [Hn Ht].
    unfold argument_name, argument_type in Hn, Ht.
    cbn [fmap list_fmap for_of]. unfold externals_step.
    rewrite Hn, Ht. unfold names_of_type. cbn [List.filter snd].
    destruct Htype as [->| ->].
    + rewrite bool_decide_eq_true_2 by done.
      rewrite IH by (intros p Hp; apply Hl; by right).
      rewrite (bool_decide_eq_true_2 ("optional" = "optional")) by done.
      rewrite (bool_decide_eq_false_2 ("optional" = "runtime")) by done.
      cbn [fmap list_fmap fst]. unfold names_of_type.
      by rewrite <- (assoc_L (++)).
    + rewrite bool_decide_eq_false_2 by done.
      rewrite bool_decide_eq_true_2 by done.
      rewrite IH by (intros p Hp; apply Hl; by right).
      rewrite (bool_decide_eq_true_2 ("runtime" = "runtime")) by done.
      rewrite (bool_decide_eq_false_2 ("runtime" = "optional")) by done.
      cbn [fmap list_fmap fst]. unfold names_of_type.
      by rewrite <- (assoc_L (++)).
Qed.

(** X14. The loop over the option [external] sorts the packages by their
    type: for arguments name:type with names without a colon and the types
    optional and runtime (no such argument looks like a number, so the
    parser passes every one as a string), the optional externals are the
    names of the arguments of type optional and the runtime externals are
    the names of those of type runtime, both in the order of the
    arguments. *)
Theorem externals_loop_sorts_by_type (l : list (string * string)) :
  (∀ p, p ∈ l → colon_free p.1 ∧ (p.2 = "optional" ∨ p.2 = "runtime")) →
  externals_loop (a_string <$> (argument <$> l))
  = Ok (names_of_type "optional" l, names_of_type "runtime" l).
Proof. intros Hl. unfold externals_loop. by rewrite externals_supported. Qed.

Lemma externals_loop_sorts_by_type_witness :
  externals_loop [a_string "fsevents:optional"; a_string "esbuild:runtime";
                  a_string "@aws-cdk/core:runtime"]
  = Ok (["fsevents"], ["esbuild"; "@aws-cdk/core"]).
Proof.
  apply (externals_loop_sorts_by_type
           [("fsevents", "optional"); ("esbuild", "runtime");
            ("@aws-cdk/core", "runtime")]).
  intros p Hp. elems Hp; subst; split; by (vm_compute; auto).
Defined.



Lemma resources_strings (resource : list string) resources :
  ∃ resources',
    for_of resources_step resources (a_string <$> resource) = Ok resources'
    ∧ ∀ source,
        Js.get resources' source
        = if bool_decide (source = "__proto__") then Js.get resources source
          else match List.filter (λ r, bool_decide (argument_name r = source))
                                 resource with
               | [] => Js.get resources source
               | r :: rest => last (argument_type <$> r :: rest)
               end.
Proof.
  revert resources. induction resource as [|r resource IH]; intros resources.
  { exists resources. split; [done|]. intros source. by case_bool_decide. }
  cbn [fmap list_fmap for_of resources_step].
  change (split ":" r).1 with (argument_name r).
  change (head (split ":" r).2) with (argument_type r).
  destruct (decide (argument_name r = "__proto__")) as [Hproto|Hproto].
  - rewrite bool_decide_eq_true_2 by done.
    destruct (IH resources) as (resources' & -> & Hget).
    exists resources'. split; [done|]. intros source. rewrite Hget.
    case_bool_decide as Hsource; [done|]. cbn [List.filter].
    rewrite bool_decide_eq_false_2 by congruence. done.
  - rewrite bool_decide_eq_false_2 by done.
    destruct (IH (Js.set resources (argument_name r) (argument_type r)))
      as (resources' & -> & Hget).
    exists resources'. split; [done|]. intros source. rewrite Hget.
    case_bool_decide as Hsource.
    { subst source. by rewrite get_set_ne. }
    cbn [List.filter].
    destruct (decide (argument_name r = source)) as [Heq|Hne].
    + rewrite bool_decide_eq_true_2 by done. rewrite <- Heq, get_set_eq.
      rewrite Heq.
      destruct (List.filter _ resource) as [|r' rest]; [done|].
      by rewrite fmap_cons, last_cons_cons.
    + rewrite bool_decide_eq_false_2 by done. by rewrite get_set_ne.
Qed.

(** X16. For values of the option [resource] that are strings, the loop
    gives the object a property for every source except [__proto__], and
    keeps the destination of the last argument with that source: the
    property of a source is the text between the first and the second colon
    of the last argument that starts with the source and a colon or is the
    source, and it is [undefined] when that argument has no colon. A source
    that no argument names has no property, and neither has [__proto__].
    In particular, for arguments source:destination without further colons,
    the property of a source is the destination of the last argument with
    that source. A value that the parser passes as a number makes the call
    of [split] throw. *)
Theorem resources_loop_last_wins (resource : list string) (source : string) :
  (∃ resources,
     resources_loop (a_string <$> resource) = Ok resources
     ∧ Js.get resources source
       = (if bool_decide (source = "__proto__") then None
          else last (argument_type
                     <$> List.filter
                           (λ r, bool_decide (argument_name r = source))
                           resource))
     ∧ ∀ l : list (string * string),
         resource = argument <$> l
         → (∀ p, p ∈ l → colon_free p.1 ∧ colon_free p.2)
         → source ≠ "__proto__"
         → Js.get resources source
           = Some
             <$> last (snd <$> List.filter (λ p, bool_decide (p.1 = source)) l))
  ∧ ∀ after,
      resources_loop ((a_string <$> resource) ++ a_number :: after)
      = Throw (TypeError "resource.split is not a function").
Proof.
  destruct (resources_strings resource []) as (resources & Hloop & Hget).
  split.
  - exists resources. split; [exact Hloop|].
    assert (Js.get resources source
            = (if bool_decide (source = "__proto__") then None
               else last (argument_type
                          <$> List.filter
                                (λ r, bool_decide (argument_name r = source))
                                resource))) as Hsource.
    { rewrite Hget. case_bool_decide; [done|].
      by destruct (List.filter _ resource). }
    split; [exact Hsource|].
    intros l -> Hl Hproto. rewrite Hsource.
    rewrite bool_decide_eq_false_2 by done. clear Hsource Hget Hloop.
    induction l as [|[name type] l IH] using rev_ind; [done|].
    destruct (Hl (name, type)) as [Hname Htype];
      [apply elem_of_app; right; left|].
    destruct (argument_name_type name type Hname Htype) as [Hn Ht].
    rewrite fmap_app, !List.filter_app, !fmap_app.
    cbn [fmap list_fmap List.filter].
    rewrite Hn. cbn [fst snd].
    destruct (decide (name = source)) as [Heq|Hne].
    + rewrite !bool_decide_eq_true_2 by done. cbn [fmap list_fmap].
      by rewrite !last_snoc, Ht.
    + rewrite !bool_decide_eq_false_2 by done. cbn [fmap list_fmap].
      rewrite !(right_id_L [] (++)). apply IH.
      intros p Hp. apply Hl, elem_of_app. by left.
  - intros after. unfold resources_loop. by rewrite for_of_app, Hloop.
Qed.

Lemma resources_loop_last_wins_witness :
  ∃ resources,
    resources_loop [a_string "a.js:bin/a.js"; a_string "b.js:bin/b.js";
                    a_string "a.js:lib/a.js"]
    = Ok resources
    ∧ Js.get resources "a.js" = Some (Some "lib/a.js").
Proof.
  destruct (resources_loop_last_wins
              ["a.js:bin/a.js"; "b.js:bin/b.js"; "a.js:lib/a.js"] "a.js")
    as [(resources & Hloop & _ & Hpairs) _].
  exists resources. split; [exact Hloop|].
  refine (eq_trans
            (Hpairs [("a.js", "bin/a.js"); ("b.js", "bin/b.js");
                     ("a.js", "lib/a.js")] _ _ _) _).
  - vm_compute; reflexivity.
  - intros p Hp. elems Hp; subst; split; by vm_compute.
  - discriminate.
  - vm_compute; reflexivity.
Defined.
